(** * intelephense: parsed documents and the completion provider

    A shallow embedding of [parsedDocument.ts] and [completionProvider.ts].
    Numbers are integers ([Z]); JavaScript's bitwise operators are written
    with their 32-bit wrap-around; a thrown exception is the [Throw] branch
    of [Result].  Collaborators whose sources are outside the two files
    (the text document, the parser, the symbol store, the request context,
    the tree traverser, the fuzzy matcher and the flag enumerations) are
    interfaces: type classes or records of operations. *)

From Stdlib Require Import ZArith String Ascii List Bool Lia Permutation Sorted.
From Stdlib Require Import Decimal DecimalString DecimalZ.
From stdpp Require Import base option list strings gmap.

Local Open Scope Z_scope.

(** ** JavaScript values and built-ins *)

Module Js.

Inductive Exception : Type :=
| TypeError
| Error (message : string).

Inductive Result (A : Type) : Type :=
| Ok (a : A)
| Throw (e : Exception).

Arguments Ok {A} a.
Arguments Throw {A} e.

Definition bind {A B} (r : Result A) (k : A -> Result B) : Result B :=
  match r with
  | Ok a => k a
  | Throw e => Throw e
  end.

(** [for (n = 0; n < ...; ++n) items.push(f(xs[n]))], where [f] may throw. *)
Fixpoint mapM {A B} (f : A -> Result B) (xs : list A) : Result (list B) :=
  match xs with
  | [] => Ok []
  | x :: xs' => bind (f x) (fun y => bind (mapM f xs') (fun ys => Ok (y :: ys)))
  end.

(** ToInt32, applied by [&] and [|] to each operand. *)
Definition toInt32 (z : Z) : Z := (z + 2 ^ 31) mod 2 ^ 32 - 2 ^ 31.

Definition band (a b : Z) : Z := Z.land (toInt32 a) (toInt32 b).
Definition bor (a b : Z) : Z := Z.lor (toInt32 a) (toInt32 b).

(** Truthiness of a number and of a string. *)
Definition truthy (z : Z) : bool := negb (z =? 0).
Definition nonEmpty (s : string) : bool :=
  match s with EmptyString => false | _ => true end.

(** Number.prototype.toString on an integer. *)
Definition numToString (z : Z) : string := NilEmpty.string_of_int (Z.to_int z).

(** Array.prototype.join. *)
Definition join (sep : string) (parts : list string) : string :=
  String.concat sep parts.

(** Array.prototype.sort with a comparator, as a stable insertion sort:
    an element stays in front of the ones it does not compare greater than. *)
Fixpoint sortInsert {A} (cmp : A -> A -> Z) (x : A) (l : list A) : list A :=
  match l with
  | [] => [x]
  | y :: l' => if cmp x y <=? 0 then x :: l else y :: sortInsert cmp x l'
  end.

Fixpoint sort {A} (cmp : A -> A -> Z) (l : list A) : list A :=
  match l with
  | [] => []
  | x :: l' => sortInsert cmp x (sort cmp l')
  end.

(** [xs.slice(0, n)] for the prefix a counting loop [n < limit] visits. *)
Definition take (limit : Z) {A} (xs : list A) : list A := firstn (Z.to_nat limit) xs.

Definition len {A} (xs : list A) : Z := Z.of_nat (List.length xs).

(** [s.indexOf(t) === 0] and [s.slice(n)] on strings. *)
Definition startsWith (s t : string) : bool := String.prefix t s.
Definition strLen (s : string) : Z := Z.of_nat (String.length s).
Definition sliceFrom (n : Z) (s : string) : string :=
  String.substring (Z.to_nat n) (String.length s - Z.to_nat n) s.

End Js.

#[global] Instance Result_ret : MRet Js.Result := fun A a => Js.Ok a.
#[global] Instance Result_bind : MBind Js.Result := fun A B k r => Js.bind r k.

(** ** Syntax tree (php7parser) *)

Inductive TokenType : Type :=
| Backslash | Name | Dollar | VariableName | ColonColon | Arrow
| OtherToken (n : N).

Inductive PhraseType : Type :=
| NamespaceName | FullyQualifiedName | QualifiedName | RelativeQualifiedName
| ClassTypeDesignator | SimpleVariable | StatementList
| ScopedCallExpression | ErrorScopedAccessExpression
| ClassConstantAccessExpression | ScopedPropertyAccessExpression
| ScopedMemberName | Identifier
| PropertyAccessExpression | MethodCallExpression | MemberName
| OtherPhrase (n : N).

#[global] Instance TokenType_eq_dec : EqDecision TokenType.
Proof. solve_decision. Defined.

#[global] Instance PhraseType_eq_dec : EqDecision PhraseType.
Proof. solve_decision. Defined.

Module Token.
Record t : Type := mk { tokenType : TokenType; offset : Z; length : Z }.
End Token.

#[warnings="-register-all"] Inductive Node : Type :=
| TokenNode (t : Token.t)
| PhraseNode (phraseType : PhraseType) (children : list Node).

(** ** Text document (textDocument.ts, an interface here) *)

Record Position : Type := mkPosition { line : Z; character : Z }.
Record Range : Type := mkRange { start : Position; end_ : Position }.

Record TextDocumentContentChangeEvent : Type :=
  mkChange { range : Range; text : string }.

Class TextDocumentOps (TD : Type) : Type := {
  td_uri : TD -> string;
  td_text : TD -> string;
  positionAtOffset : TD -> Z -> Position;
  applyEdit : TD -> Position -> Position -> string -> TD
}.

(** ** ParsedDocument *)

Module ParsedDocument.

Record t (TD : Type) : Type := mk {
  _textDocument : TD;
  _parseTree : Node;
  (* the debounced reparse: true while a call of [_reparse] is pending *)
  _debouncePending : bool
}.
Arguments mk {TD}.
Arguments _textDocument {TD}.
Arguments _parseTree {TD}.
Arguments _debouncePending {TD}.

Definition indexOfIn {A} `{EqDecision A} (x : A) (xs : list A) : bool :=
  bool_decide (x ∈ xs).

(** [isToken(node, types?)]; an absent node is [None]. *)
Definition isToken (node : option Node) (types : option (list TokenType)) : bool :=
  match node with
  | Some (TokenNode t) =>
      match types with
      | None => true
      | Some ts => indexOfIn (Token.tokenType t) ts
      end
  | _ => false
  end.

Definition isPhrase (node : option Node) (types : option (list PhraseType)) : bool :=
  match node with
  | Some (PhraseNode ty _) =>
      match types with
      | None => true
      | Some ts => indexOfIn ty ts
      end
  | _ => false
  end.

Fixpoint firstToken (node : Node) : option Token.t :=
  match node with
  | TokenNode t => Some t
  | PhraseNode _ children =>
      (fix loop (cs : list Node) : option Token.t :=
         match cs with
         | [] => None
         | c :: cs' =>
             match firstToken c with
             | Some t => Some t
             | None => loop cs'
             end
         end) children
  end.

(** The loop of [lastToken] runs from the last child down to the first; the
    nested recursion returns the same token, the rightmost child's if any. *)
Fixpoint lastToken (node : Node) : option Token.t :=
  match node with
  | TokenNode t => Some t
  | PhraseNode _ children =>
      (fix loop (cs : list Node) : option Token.t :=
         match cs with
         | [] => None
         | c :: cs' =>
             match loop cs' with
             | Some t => Some t
             | None => lastToken c
             end
         end) children
  end.

Definition _textDocumentChangeCompareFn (a b : TextDocumentContentChangeEvent) : Z :=
  if line (end_ (range a)) >? line (end_ (range b)) then -1
  else if line (end_ (range a)) <? line (end_ (range b)) then 1
  else character (end_ (range b)) - character (end_ (range a)).

Section WithTextDocument.
Context {TD : Type} `{!TextDocumentOps TD}.

Definition tokenRange (doc : t TD) (tok : option Token.t) : option Range :=
  match tok with
  | None => None
  | Some tk =>
      Some {| start := positionAtOffset (_textDocument doc) (Token.offset tk);
              end_ := positionAtOffset (_textDocument doc) (Token.offset tk + Token.length tk) |}
  end.

Definition phraseRange (doc : t TD) (p : Node) : option Range :=
  let tFirst := firstToken p in
  let tLast := lastToken p in
  match tFirst, tLast with
  | Some tf, Some tl =>
      Some {| start := positionAtOffset (_textDocument doc) (Token.offset tf);
              end_ := positionAtOffset (_textDocument doc) (Token.offset tl + Token.length tl) |}
  | _, _ => None
  end.

(** Reading [range.start] of a null range is a TypeError. *)
Definition createAnonymousName (doc : t TD) (node : Node) : Js.Result string :=
  match phraseRange doc node with
  | None => Js.Throw Js.TypeError
  | Some range =>
      let suffix :=
        Js.join "#" [Js.numToString (line (start range));
                     Js.numToString (character (start range));
                     Js.numToString (line (end_ range));
                     Js.numToString (character (end_ range))] in
      Js.Ok ("#anonymous#" +:+ suffix)
  end.

Definition applyChanges (doc : t TD) (contentChanges : list TextDocumentContentChangeEvent) : t TD :=
  let sorted := Js.sort _textDocumentChangeCompareFn contentChanges in
  let td :=
    fold_left (fun td change =>
                 applyEdit td (start (range change)) (end_ (range change)) (text change))
              sorted (_textDocument doc) in
  {| _textDocument := td; _parseTree := _parseTree doc; _debouncePending := true |}.

Definition uri (doc : t TD) : string := td_uri (_textDocument doc).

End WithTextDocument.

End ParsedDocument.

(** ** Objects used as maps *)

(** Every object literal inherits the members of [Object.prototype]: reading
    [{}[key]] finds them under their names. *)
Module ObjectPrototype.

Definition members : list string :=
  ["constructor"; "__defineGetter__"; "__defineSetter__"; "hasOwnProperty";
   "__lookupGetter__"; "__lookupSetter__"; "isPrototypeOf"; "propertyIsEnumerable";
   "toString"; "valueOf"; "__proto__"; "toLocaleString"]%string.

Definition has (key : string) : bool := bool_decide (key ∈ members).

(** Calling the member found under [key] without receiver and arguments:
    [Object()], [toString()] and [isPrototypeOf()] return; the other
    functions convert the undefined receiver to an object, and the value of
    [__proto__] is not a function: a TypeError. *)
Definition call (key : string) : Js.Result unit :=
  if bool_decide (key ∈ ["constructor"; "toString"; "isPrototypeOf"]%string)
  then Js.Ok tt
  else Js.Throw Js.TypeError.

End ObjectPrototype.

(** ** ParsedDocumentStore *)

Module ParsedDocumentStore.

(** What reading [_parsedDocumentmap[uri]] yields when it is not undefined:
    a document of the store, or the inherited member of that name. *)
Inductive Value (TD : Type) : Type :=
| Document (doc : ParsedDocument.t TD)
| Inherited (member : string).
Arguments Document {TD} doc.
Arguments Inherited {TD} member.

Section WithTextDocument.
Context {TD : Type} `{!TextDocumentOps TD}.

(** The own properties of the two objects [_parsedDocumentmap] and
    [_unsubscribeMap], both created as [{}]. *)
Record t : Type := mk {
  _parsedDocumentmap : gmap string (ParsedDocument.t TD);
  _unsubscribeMap : gset string
}.

Definition empty : t := {| _parsedDocumentmap := ∅; _unsubscribeMap := ∅ |}.

(** [Object.keys] lists the own properties only. *)
Definition count (s : t) : nat := size (_parsedDocumentmap s).

Definition find (s : t) (uri : string) : option (Value TD) :=
  match _parsedDocumentmap s !! uri with
  | Some doc => Some (Document doc)
  | None => if ObjectPrototype.has uri then Some (Inherited uri) else None
  end.

Definition has (s : t) (uri : string) : bool :=
  match find s uri with Some _ => true | None => false end.

Definition add (s : t) (parsedDocument : ParsedDocument.t TD) : Js.Result t :=
  if has s (ParsedDocument.uri parsedDocument) then Js.Throw (Js.Error "Duplicate key")
  else Js.Ok {| _parsedDocumentmap :=
                  <[ParsedDocument.uri parsedDocument := parsedDocument]> (_parsedDocumentmap s);
                _unsubscribeMap := {[ParsedDocument.uri parsedDocument]} ∪ _unsubscribeMap s |}.

(** [this._unsubscribeMap[uri]()]: the handle stored by [add], else the
    inherited member of that name, else undefined, which is not callable. *)
Definition unsubscribe (s : t) (uri : string) : Js.Result unit :=
  if bool_decide (uri ∈ _unsubscribeMap s) then Js.Ok tt
  else if ObjectPrototype.has uri then ObjectPrototype.call uri
  else Js.Throw Js.TypeError.

Definition remove (s : t) (uri : string) : Js.Result t :=
  if negb (has s uri) then Js.Ok s
  else
    _ ← unsubscribe s uri;
    mret {| _parsedDocumentmap := delete uri (_parsedDocumentmap s);
            _unsubscribeMap := _unsubscribeMap s |}.

End WithTextDocument.
Arguments t TD : clear implicits.

End ParsedDocumentStore.

(** ** Symbols (symbol.ts, an interface here) *)

(** The [SymbolKind] and [SymbolModifier] flag enumerations; their numeric
    values are declared outside the two embedded files. *)
Module SymbolKind.
Class Enum : Type := {
  Class_ : Z; Function_ : Z; Constant : Z; Property : Z; Method : Z;
  Parameter_ : Z; Variable_ : Z; ClassConstant : Z
}.
End SymbolKind.

Module SymbolModifier.
Class Enum : Type := {
  Protected : Z; Private : Z; Abstract : Z; Static : Z; Anonymous : Z; Use : Z
}.
End SymbolModifier.

Module TypeString.
Record t : Type := mk { toString : string; atomicClassArray : list string }.
End TypeString.

Module PhpSymbol.
#[warnings="-register-all"] Inductive t : Type := mk {
  kind : Z;
  name : string;
  modifiers : Z;
  description : option string;
  type : option TypeString.t;
  location : option Range;
  associated : option (list t);
  children : list t
}.
End PhpSymbol.

Record MemberQuery : Type :=
  mkMemberQuery { typeName : string; memberPredicate : PhpSymbol.t -> bool }.

Module SymbolStore.
Record t : Type := mk {
  match_ : string -> (PhpSymbol.t -> bool) -> list PhpSymbol.t;
  lookupMembersOnTypes : list MemberQuery -> list PhpSymbol.t
}.
End SymbolStore.

Module NameResolver.
Record t : Type := mk {
  namespaceName : string;
  namespaceNamePhraseText : option Node -> Z -> string;
  resolveRelative : string -> string
}.
End NameResolver.

(** [util.fuzzyStringMatch]. *)
Class Util : Type := { fuzzyStringMatch : string -> string -> bool }.

(** The named children php7parser puts on scoped and member access phrases. *)
Class PhraseFields : Type := {
  scope : Node -> option Node;
  variable : Node -> option Node
}.

(** [TreeTraverser] (types.ts): a cursor with a current node; [parent] and
    [ancestor] return a node and may move the cursor. *)
Class TreeTraverserOps (T : Type) : Type := {
  node : T -> option Node;
  parent : T -> T * option Node;
  ancestor : (Node -> bool) -> T -> T * option Node
}.

(** The request context (context.ts). *)
Module Context.
Record t (T : Type) : Type := mk {
  symbolStore : SymbolStore.t;
  createTraverser : T;
  createNameResolver : NameResolver.t;
  offset : Z;
  word : string;
  scopeSymbol : option PhpSymbol.t;
  thisName : string;
  thisBaseName : string;
  resolveExpressionType : option Node -> TypeString.t
}.
Arguments mk {T}.
Arguments symbolStore {T}.
Arguments createTraverser {T}.
Arguments createNameResolver {T}.
Arguments offset {T}.
Arguments word {T}.
Arguments scopeSymbol {T}.
Arguments thisName {T}.
Arguments thisBaseName {T}.
Arguments resolveExpressionType {T}.
End Context.

(** [new Context(symbolStore, doc, position)]. *)
Class ContextFactory (TD T : Type) : Type := {
  newContext : SymbolStore.t -> ParsedDocument.t TD -> Position -> Context.t T;
  (* the constructor handed the member of Object.prototype of that name in
     place of a document; it may throw *)
  newContextOnInherited : SymbolStore.t -> string -> Position -> Js.Result (Context.t T)
}.

(** ** Language-server protocol values (vscode-languageserver-types) *)

Module lsp.

Module CompletionItemKind.
Definition Method : Z := 2.
Definition Property : Z := 10.
Definition Value : Z := 12.
Definition Keyword : Z := 14.
End CompletionItemKind.

Module SymbolKind.
Definition Class_ : Z := 5.
Definition Constructor : Z := 9.
Definition Function_ : Z := 12.
Definition Variable_ : Z := 13.
Definition Constant : Z := 14.
Definition String_ : Z := 15.
End SymbolKind.

Module InsertTextFormat.
Definition Snippet : Z := 2.
End InsertTextFormat.

Record CompletionItem : Type := mkCompletionItem {
  label : string;
  kind : Z;
  detail : option string;
  documentation : option string;
  insertText : option string;
  insertTextFormat : option Z
}.

Record CompletionList : Type := mkCompletionList {
  items : list CompletionItem;
  isIncomplete : bool
}.

End lsp.

(** ** completionProvider.ts *)

Module Completion.

Definition noCompletionResponse : lsp.CompletionList :=
  {| lsp.items := []; lsp.isIncomplete := false |}.

Definition symbolKindToLspSymbolKind `{!SymbolKind.Enum} (kind : Z) : Z :=
  if kind =? SymbolKind.Class_ then lsp.SymbolKind.Class_
  else if kind =? SymbolKind.Function_ then lsp.SymbolKind.Function_
  else if kind =? SymbolKind.Constant then lsp.SymbolKind.Constant
  else lsp.SymbolKind.String_.

Definition toMethodCompletionItem (s : PhpSymbol.t) : lsp.CompletionItem :=
  {| lsp.kind := lsp.CompletionItemKind.Method;
     lsp.label := PhpSymbol.name s;
     lsp.documentation := PhpSymbol.description s;
     lsp.detail := Some EmptyString;
     lsp.insertText := None; lsp.insertTextFormat := None |}.

Definition toClassConstantCompletionItem (s : PhpSymbol.t) : lsp.CompletionItem :=
  {| lsp.kind := lsp.CompletionItemKind.Value;
     lsp.label := PhpSymbol.name s;
     lsp.documentation := PhpSymbol.description s;
     lsp.detail := None; lsp.insertText := None; lsp.insertTextFormat := None |}.

Definition toPropertyCompletionItem `{!SymbolModifier.Enum} (s : PhpSymbol.t) : lsp.CompletionItem :=
  {| lsp.kind := lsp.CompletionItemKind.Property;
     lsp.label := if negb (Js.truthy (Js.band (PhpSymbol.modifiers s) SymbolModifier.Static))
              then Js.sliceFrom 1 (PhpSymbol.name s) else PhpSymbol.name s;
     lsp.documentation := PhpSymbol.description s;
     lsp.detail := match PhpSymbol.type s with
               | Some ty => Some (TypeString.toString ty)
               | None => Some EmptyString
               end;
     lsp.insertText := None; lsp.insertTextFormat := None |}.

Section WithCollaborators.
Context `{!Util} `{!SymbolKind.Enum} `{!SymbolModifier.Enum}.

Fixpoint keywordCompletionItems (keywords : list string) (text : string) : list lsp.CompletionItem :=
  match keywords with
  | [] => []
  | kw :: rest =>
      if fuzzyStringMatch text kw
      then {| lsp.label := kw; lsp.kind := lsp.CompletionItemKind.Keyword; lsp.detail := None;
              lsp.documentation := None; lsp.insertText := None; lsp.insertTextFormat := None |}
           :: keywordCompletionItems rest text
      else keywordCompletionItems rest text
  end.

Definition toNameCompletionItem (s : PhpSymbol.t) (namespace : string)
    (namePhraseType : option PhraseType) (kind : option Z) : lsp.CompletionItem :=
  let label0 := PhpSymbol.name s in
  let detail0 := PhpSymbol.name s in
  let '(label1, detail1) :=
    if Js.nonEmpty namespace && Js.startsWith (PhpSymbol.name s) namespace
       && (Js.strLen label0 >? Js.strLen namespace + 1)
    then (Js.sliceFrom (Js.strLen namespace + 1) label0, detail0)
    else if Js.nonEmpty namespace
            && negb (bool_decide (namePhraseType = Some FullyQualifiedName))
            && negb (Js.truthy (Js.band (PhpSymbol.modifiers s) SymbolModifier.Use))
    then (String "\" label0, detail0)
    else if (Js.band (PhpSymbol.modifiers s) SymbolModifier.Use >? 0)
            && match PhpSymbol.associated s with
               | Some (a :: _) => true
               | _ => false
               end
    then (label0, match PhpSymbol.associated s with
                  | Some (a :: _) => PhpSymbol.name a
                  | _ => detail0
                  end)
    else (label0, detail0) in
  let kind1 :=
    match kind with
    | Some k => if Js.truthy k then k else symbolKindToLspSymbolKind (PhpSymbol.kind s)
    | None => symbolKindToLspSymbolKind (PhpSymbol.kind s)
    end in
  {| lsp.label := label1;
     lsp.kind := kind1;
     lsp.detail := Some detail1;
     lsp.documentation := PhpSymbol.description s;
     lsp.insertText := Some (label1 +:+ "($0)");
     lsp.insertTextFormat := Some lsp.InsertTextFormat.Snippet |}.

(** The tail shared by every strategy: the first [limit] symbols are turned
    into items and pushed after the items already collected. *)
Definition pushItems (toItem : PhpSymbol.t -> Js.Result lsp.CompletionItem)
    (limit : Z) (symbols : list PhpSymbol.t) (items : list lsp.CompletionItem)
    : Js.Result (list lsp.CompletionItem) :=
  more ← Js.mapM toItem (Js.take limit symbols); mret (items ++ more).

End WithCollaborators.

(** [interface CompletionStrategy]. *)
Record CompletionStrategy (T : Type) : Type := mkStrategy {
  canSuggest : Context.t T -> bool;
  completions : Context.t T -> Js.Result lsp.CompletionList
}.
Arguments mkStrategy {T}.
Arguments canSuggest {T}.
Arguments completions {T}.

(** Reading [n.phraseType]: a TypeError on a null node, undefined on a token. *)
Definition phraseTypeOf (n : option Node) : Js.Result (option PhraseType) :=
  match n with
  | Some (PhraseNode ty _) => Js.Ok (Some ty)
  | Some (TokenNode _) => Js.Ok None
  | None => Js.Throw Js.TypeError
  end.

Definition phraseTypeIs (ty : option PhraseType) (expected : PhraseType) : bool :=
  bool_decide (ty = Some expected).

End Completion.

Import Completion.

Module ClassTypeDesignatorCompletion.

Definition _keywords : list string := ["class"; "static"; "namespace"]%string.

Section WithCollaborators.
Context {T : Type} `{!TreeTraverserOps T} `{!Util} `{!SymbolKind.Enum} `{!SymbolModifier.Enum}.

Definition canSuggest (context : Context.t T) : bool :=
  let traverser := Context.createTraverser context in
  if ParsedDocument.isToken (node traverser) (Some [Backslash; Name]) then
    let '(traverser, p) := parent traverser in
    if ParsedDocument.isPhrase p (Some [NamespaceName]) then
      let '(traverser, p) := parent traverser in
      if ParsedDocument.isPhrase p
           (Some [FullyQualifiedName; QualifiedName; RelativeQualifiedName]) then
        let '(traverser, p) := parent traverser in
        ParsedDocument.isPhrase p (Some [ClassTypeDesignator])
      else false
    else false
  else false.

Definition _symbolFilter (s : PhpSymbol.t) : bool :=
  (PhpSymbol.kind s =? SymbolKind.Class_)
  && negb (Js.truthy (Js.band (PhpSymbol.modifiers s)
                              (Js.bor SymbolModifier.Anonymous SymbolModifier.Abstract))).

Definition completions (maxSuggestions : Z) (context : Context.t T) : Js.Result lsp.CompletionList :=
  let items : list lsp.CompletionItem := [] in
  let traverser := Context.createTraverser context in
  let '(traverser, nsNameNode) := parent traverser in
  let '(traverser, qNameNode) := parent traverser in
  let nameResolver := Context.createNameResolver context in
  let text := NameResolver.namespaceNamePhraseText nameResolver nsNameNode (Context.offset context) in
  if negb (Js.nonEmpty text) then mret noCompletionResponse
  else
    qType ← phraseTypeOf qNameNode;
    let items :=
      if phraseTypeIs qType QualifiedName
      then items ++ keywordCompletionItems _keywords text
      else items in
    let text :=
      if phraseTypeIs qType RelativeQualifiedName
      then NameResolver.resolveRelative nameResolver text
      else text in
    let matches := SymbolStore.match_ (Context.symbolStore context) text _symbolFilter in
    let limit := Z.min (Js.len matches) (maxSuggestions - Js.len items) in
    let isIncomplete := Js.len matches >? maxSuggestions - Js.len items in
    items ← pushItems
      (fun s => mret (toNameCompletionItem s (NameResolver.namespaceName nameResolver)
                        qType (Some lsp.SymbolKind.Constructor)))
      limit matches items;
    mret {| lsp.items := items; lsp.isIncomplete := isIncomplete |}.

Definition new (maxSuggestions : Z) : CompletionStrategy T :=
  {| Completion.canSuggest := canSuggest;
     Completion.completions := completions maxSuggestions |}.

End WithCollaborators.
End ClassTypeDesignatorCompletion.

Module SimpleVariableCompletion.
Section WithCollaborators.
Context {T : Type} `{!TreeTraverserOps T} `{!Util} `{!SymbolKind.Enum} `{!SymbolModifier.Enum}.

Definition canSuggest (context : Context.t T) : bool :=
  let traverser := Context.createTraverser context in
  if ParsedDocument.isToken (node traverser) (Some [Dollar; VariableName]) then
    let '(traverser, p) := parent traverser in
    ParsedDocument.isPhrase p (Some [SimpleVariable])
  else false.

Definition _isBuiltInGlobalVar (s : PhpSymbol.t) : bool :=
  (PhpSymbol.kind s =? SymbolKind.Variable_)
  && match PhpSymbol.location s with None => true | Some _ => false end.

Definition _toCompletionItem (s : PhpSymbol.t) : lsp.CompletionItem :=
  {| lsp.label := PhpSymbol.name s;
     lsp.kind := lsp.SymbolKind.Variable_;
     lsp.documentation := PhpSymbol.description s;
     lsp.detail := None; lsp.insertText := None; lsp.insertTextFormat := None |}.

Definition completions (maxSuggestions : Z) (context : Context.t T) : Js.Result lsp.CompletionList :=
  let nameResolver := Context.createNameResolver context in
  let text := Context.word context in
  if negb (Js.nonEmpty text) then mret noCompletionResponse
  else
    match Context.scopeSymbol context with
    | None => Js.Throw Js.TypeError
    | Some scope =>
        let symbolMask := Js.bor SymbolKind.Variable_ SymbolKind.Parameter_ in
        let varSymbols :=
          List.filter (fun x => (Js.band (PhpSymbol.kind x) symbolMask >? 0)
                                && Js.startsWith (PhpSymbol.name x) text)
                      (PhpSymbol.children scope) in
        let varSymbols :=
          varSymbols ++ SymbolStore.match_ (Context.symbolStore context) text _isBuiltInGlobalVar in
        let limit := Z.min (Js.len varSymbols) maxSuggestions in
        let isIncomplete := Js.len varSymbols >? maxSuggestions in
        items ← pushItems (fun s => mret (_toCompletionItem s)) limit varSymbols [];
        mret {| lsp.items := items; lsp.isIncomplete := isIncomplete |}
    end.

Definition new (maxSuggestions : Z) : CompletionStrategy T :=
  {| Completion.canSuggest := canSuggest;
     Completion.completions := completions maxSuggestions |}.

End WithCollaborators.
End SimpleVariableCompletion.

Module NameCompletion.

Definition _statementKeywords : list string :=
  ["__halt_compiler"; "abstract"; "break"; "catch"; "class"; "const"; "continue";
   "declare"; "die"; "do"; "echo"; "else"; "elseif"; "enddeclare"; "endfor";
   "endforeach"; "endif"; "endswitch"; "endwhile"; "final"; "finally"; "for";
   "foreach"; "function"; "global"; "goto"; "if"; "interface"; "list";
   "namespace"; "return"; "static"; "switch"; "throw"; "trait"; "try"; "unset";
   "use"; "while"]%string.

Definition _expressionKeywords : list string :=
  ["array"; "clone"; "empty"; "eval"; "exit"; "function"; "include";
   "include_once"; "isset"; "new"; "parent"; "print"; "require"; "require_once";
   "static"; "yield"]%string.

Section WithCollaborators.
Context {T : Type} `{!TreeTraverserOps T} `{!Util} `{!SymbolKind.Enum} `{!SymbolModifier.Enum}.

Definition canSuggest (context : Context.t T) : bool :=
  let traverser := Context.createTraverser context in
  if ParsedDocument.isToken (node traverser) (Some [Backslash; Name]) then
    let '(traverser, p) := parent traverser in
    ParsedDocument.isPhrase p
      (Some [FullyQualifiedName; QualifiedName; RelativeQualifiedName])
  else false.

Definition _symbolFilter (s : PhpSymbol.t) : bool :=
  (Js.band (PhpSymbol.kind s)
           (Js.bor (Js.bor SymbolKind.Class_ SymbolKind.Function_) SymbolKind.Constant) >? 0)
  && negb (Js.truthy (Js.band (PhpSymbol.modifiers s) SymbolModifier.Anonymous)).

Definition completions (maxSuggestions : Z) (context : Context.t T) : Js.Result lsp.CompletionList :=
  let items : list lsp.CompletionItem := [] in
  let traverser := Context.createTraverser context in
  let '(traverser, nsNameNode) := parent traverser in
  let '(traverser, qNameNode) := parent traverser in
  let '(traverser, qNameParent) := parent traverser in
  let nameResolver := Context.createNameResolver context in
  let text := NameResolver.namespaceNamePhraseText nameResolver nsNameNode (Context.offset context) in
  if negb (Js.nonEmpty text) then mret noCompletionResponse
  else
    qType ← phraseTypeOf qNameNode;
    items ←
      (if phraseTypeIs qType QualifiedName then
         let items := items ++ keywordCompletionItems _expressionKeywords text in
         parentType ← phraseTypeOf qNameParent;
         if phraseTypeIs parentType StatementList
         then mret (items ++ keywordCompletionItems _statementKeywords text)
         else mret items
       else mret items);
    let text :=
      if phraseTypeIs qType RelativeQualifiedName
      then NameResolver.resolveRelative nameResolver text
      else text in
    let matches := SymbolStore.match_ (Context.symbolStore context) text _symbolFilter in
    let limit := Z.min (Js.len matches) (maxSuggestions - Js.len items) in
    let isIncomplete := Js.len matches >? maxSuggestions - Js.len items in
    items ← pushItems
      (fun s => mret (toNameCompletionItem s (NameResolver.namespaceName nameResolver)
                        qType None))
      limit matches items;
    mret {| lsp.items := items; lsp.isIncomplete := isIncomplete |}.

Definition new (maxSuggestions : Z) : CompletionStrategy T :=
  {| Completion.canSuggest := canSuggest;
     Completion.completions := completions maxSuggestions |}.

End WithCollaborators.
End NameCompletion.

Module ScopedAccessCompletion.
Section WithCollaborators.
Context {T : Type} `{!TreeTraverserOps T} `{!PhraseFields} `{!Util}
        `{!SymbolKind.Enum} `{!SymbolModifier.Enum}.

Definition canSuggest (context : Context.t T) : bool :=
  let traverser := Context.createTraverser context in
  let scopedAccessPhrases :=
    [ScopedCallExpression; ErrorScopedAccessExpression;
     ClassConstantAccessExpression; ScopedPropertyAccessExpression] in
  if ParsedDocument.isToken (node traverser) (Some [ColonColon]) then
    ParsedDocument.isPhrase (snd (parent traverser)) (Some scopedAccessPhrases)
  else if ParsedDocument.isToken (node traverser) (Some [VariableName]) then
    ParsedDocument.isPhrase (snd (parent traverser)) (Some [ScopedMemberName])
  else if ParsedDocument.isToken (node traverser) (Some [Dollar]) then
    let '(traverser, p) := parent traverser in
    if ParsedDocument.isPhrase p (Some [SimpleVariable]) then
      ParsedDocument.isPhrase (snd (parent traverser)) (Some [ScopedMemberName])
    else false
  else
    let '(traverser, p) := parent traverser in
    if ParsedDocument.isPhrase p (Some [Identifier]) then
      ParsedDocument.isPhrase (snd (parent traverser)) (Some [ScopedMemberName])
    else false.

Definition _toCompletionItem (s : PhpSymbol.t) : Js.Result lsp.CompletionItem :=
  if PhpSymbol.kind s =? SymbolKind.ClassConstant then mret (toClassConstantCompletionItem s)
  else if PhpSymbol.kind s =? SymbolKind.Method then mret (toMethodCompletionItem s)
  else if PhpSymbol.kind s =? SymbolKind.Property then mret (toPropertyCompletionItem s)
  else Js.Throw (Js.Error "Invalid Argument").

Definition isStaticMember (s : PhpSymbol.t) : bool :=
  ((Js.band (PhpSymbol.kind s) (Js.bor SymbolKind.Method SymbolKind.Property) >? 0)
   && (Js.band (PhpSymbol.modifiers s) SymbolModifier.Static >? 0))
  || (PhpSymbol.kind s =? SymbolKind.ClassConstant).

Definition _createMembersPredicate (text : string) : PhpSymbol.t -> bool :=
  fun s =>
    isStaticMember s
    && negb (Js.truthy (Js.band (PhpSymbol.modifiers s)
                                (Js.bor SymbolModifier.Private SymbolModifier.Protected)))
    && fuzzyStringMatch text (PhpSymbol.name s).

Definition _createBaseMembersPredicate (text : string) : PhpSymbol.t -> bool :=
  fun s =>
    isStaticMember s
    && negb (Js.truthy (Js.band (PhpSymbol.modifiers s) SymbolModifier.Private))
    && fuzzyStringMatch text (PhpSymbol.name s).

Definition _createOwnMembersPredicate (text : string) : PhpSymbol.t -> bool :=
  fun s => isStaticMember s && fuzzyStringMatch text (PhpSymbol.name s).

Definition _isScopedAccessExpr (n : Node) : bool :=
  match n with
  | PhraseNode ScopedCallExpression _
  | PhraseNode ErrorScopedAccessExpression _
  | PhraseNode ClassConstantAccessExpression _
  | PhraseNode ScopedPropertyAccessExpression _ => true
  | _ => false
  end.

(** The loop over [typeNames] that builds the member queries. *)
Fixpoint memberQueries (context : Context.t T) (memberPred baseMemberPred ownMemberPred : PhpSymbol.t -> bool)
    (typeNames : list string) : list MemberQuery :=
  match typeNames with
  | [] => []
  | typeName :: rest =>
      let pred :=
        if String.eqb typeName (Context.thisName context) then ownMemberPred
        else if String.eqb typeName (Context.thisBaseName context) then baseMemberPred
        else memberPred in
      {| typeName := typeName; memberPredicate := pred |}
      :: memberQueries context memberPred baseMemberPred ownMemberPred rest
  end.

Definition completions (symbolStore : SymbolStore.t) (maxSuggestions : Z)
    (context : Context.t T) : Js.Result lsp.CompletionList :=
  let traverser := Context.createTraverser context in
  let '(traverser, scopedAccessExpr) := ancestor _isScopedAccessExpr traverser in
  match scopedAccessExpr with
  | None => Js.Throw Js.TypeError
  | Some expr =>
      let accessee := scope expr in
      let type := Context.resolveExpressionType context accessee in
      let text := Context.word context in
      let typeNames := TypeString.atomicClassArray type in
      if (Js.len typeNames =? 0) then mret noCompletionResponse
      else
        let memberPred := _createMembersPredicate text in
        let baseMemberPred := _createBaseMembersPredicate text in
        let ownMemberPred := _createOwnMembersPredicate text in
        let queries := memberQueries context memberPred baseMemberPred ownMemberPred typeNames in
        let symbols := SymbolStore.lookupMembersOnTypes symbolStore queries in
        let isIncomplete := Js.len symbols >? maxSuggestions in
        let limit := Z.min (Js.len symbols) maxSuggestions in
        items ← pushItems _toCompletionItem limit symbols [];
        mret {| lsp.isIncomplete := isIncomplete; lsp.items := items |}
  end.

Definition new (symbolStore : SymbolStore.t) (maxSuggestions : Z) : CompletionStrategy T :=
  {| Completion.canSuggest := canSuggest;
     Completion.completions := completions symbolStore maxSuggestions |}.

End WithCollaborators.
End ScopedAccessCompletion.

Module ObjectAccessCompletion.
Section WithCollaborators.
Context {T : Type} `{!TreeTraverserOps T} `{!PhraseFields} `{!Util}
        `{!SymbolKind.Enum} `{!SymbolModifier.Enum}.

Definition canSuggest (context : Context.t T) : bool :=
  let traverser := Context.createTraverser context in
  if ParsedDocument.isToken (node traverser) (Some [Arrow]) then
    ParsedDocument.isPhrase (snd (parent traverser))
      (Some [PropertyAccessExpression; MethodCallExpression])
  else if ParsedDocument.isToken (node traverser) (Some [Name]) then
    ParsedDocument.isPhrase (snd (parent traverser))
      (Some [PropertyAccessExpression; MethodCallExpression])
  else false.

Definition _toCompletionItem (s : PhpSymbol.t) : Js.Result lsp.CompletionItem :=
  if PhpSymbol.kind s =? SymbolKind.Method then mret (toMethodCompletionItem s)
  else if PhpSymbol.kind s =? SymbolKind.Property then mret (toPropertyCompletionItem s)
  else Js.Throw (Js.Error "Invalid Argument").

Definition _createMembersPredicate (text : string) : PhpSymbol.t -> bool :=
  fun s =>
    (Js.band (PhpSymbol.kind s) (Js.bor SymbolKind.Method SymbolKind.Property) >? 0)
    && negb (Js.truthy
               (Js.band (PhpSymbol.modifiers s)
                        (Js.bor (Js.bor SymbolModifier.Private SymbolModifier.Protected)
                                SymbolModifier.Static)))
    && fuzzyStringMatch text (PhpSymbol.name s).

(** [!(s.modifiers & SymbolModifier.Private | SymbolModifier.Static)]:
    [&] binds tighter than [|]. *)
Definition _createBaseMembersPredicate (text : string) : PhpSymbol.t -> bool :=
  fun s =>
    (Js.band (PhpSymbol.kind s) (Js.bor SymbolKind.Method SymbolKind.Property) >? 0)
    && negb (Js.truthy
               (Js.bor (Js.band (PhpSymbol.modifiers s) SymbolModifier.Private)
                       SymbolModifier.Static))
    && fuzzyStringMatch text (PhpSymbol.name s).

Definition _createOwnMembersPredicate (text : string) : PhpSymbol.t -> bool :=
  fun s =>
    (Js.band (PhpSymbol.kind s) (Js.bor SymbolKind.Method SymbolKind.Property) >? 0)
    && negb (Js.truthy (Js.band (PhpSymbol.modifiers s) SymbolModifier.Static))
    && fuzzyStringMatch text (PhpSymbol.name s).

Definition _isMemberAccessExpr (n : Node) : bool :=
  match n with
  | PhraseNode PropertyAccessExpression _
  | PhraseNode MethodCallExpression _ => true
  | _ => false
  end.

Fixpoint memberQueries (context : Context.t T) (memberPred basePred ownPred : PhpSymbol.t -> bool)
    (typeNames : list string) : list MemberQuery :=
  match typeNames with
  | [] => []
  | typeName :: rest =>
      let pred :=
        if String.eqb typeName (Context.thisName context) then ownPred
        else if String.eqb typeName (Context.thisBaseName context) then basePred
        else memberPred in
      {| typeName := typeName; memberPredicate := pred |}
      :: memberQueries context memberPred basePred ownPred rest
  end.

Definition completions (symbolStore : SymbolStore.t) (maxSuggestions : Z)
    (context : Context.t T) : Js.Result lsp.CompletionList :=
  let traverser := Context.createTraverser context in
  let '(traverser, objAccessExpr) := ancestor _isMemberAccessExpr traverser in
  match objAccessExpr with
  | None => Js.Throw Js.TypeError
  | Some expr =>
      let type := Context.resolveExpressionType context (variable expr) in
      let typeNames := TypeString.atomicClassArray type in
      let text := Context.word context in
      if (Js.len typeNames =? 0) then mret noCompletionResponse
      else
        let memberPred := _createMembersPredicate text in
        let basePred := _createBaseMembersPredicate text in
        let ownPred := _createOwnMembersPredicate text in
        let queries := memberQueries context memberPred basePred ownPred typeNames in
        let symbols := SymbolStore.lookupMembersOnTypes symbolStore queries in
        let isIncomplete := Js.len symbols >? maxSuggestions in
        let limit := Z.min (Js.len symbols) maxSuggestions in
        items ← pushItems _toCompletionItem limit symbols [];
        mret {| lsp.isIncomplete := isIncomplete; lsp.items := items |}
  end.

Definition new (symbolStore : SymbolStore.t) (maxSuggestions : Z) : CompletionStrategy T :=
  {| Completion.canSuggest := canSuggest;
     Completion.completions := completions symbolStore maxSuggestions |}.

End WithCollaborators.
End ObjectAccessCompletion.

Module CompletionProvider.
Section WithCollaborators.
Context {TD T : Type} `{!TextDocumentOps TD} `{!TreeTraverserOps T} `{!ContextFactory TD T}
        `{!PhraseFields} `{!Util} `{!SymbolKind.Enum} `{!SymbolModifier.Enum}.

Record t : Type := mk {
  symbolStore : SymbolStore.t;
  documentStore : ParsedDocumentStore.t TD;
  maxSuggestions : Z;
  _strategies : list (CompletionStrategy T)
}.

Definition new (symbolStore : SymbolStore.t) (documentStore : ParsedDocumentStore.t TD)
    (maxSuggestions : Z) : t :=
  {| symbolStore := symbolStore;
     documentStore := documentStore;
     maxSuggestions := maxSuggestions;
     _strategies :=
       [ClassTypeDesignatorCompletion.new maxSuggestions;
        ScopedAccessCompletion.new symbolStore maxSuggestions;
        ObjectAccessCompletion.new symbolStore maxSuggestions;
        SimpleVariableCompletion.new maxSuggestions;
        NameCompletion.new maxSuggestions] |}.

(** The selection loop: [strategy] is the first entry whose [canSuggest]
    accepts the context, and stays null when the loop runs to the end. *)
Fixpoint selectStrategy (strategies : list (CompletionStrategy T)) (context : Context.t T)
    : option (CompletionStrategy T) :=
  match strategies with
  | [] => None
  | s :: rest => if canSuggest s context then Some s else selectStrategy rest context
  end.

(** What follows the construction of the context. *)
Definition suggest (this : t) (context : Context.t T) : Js.Result lsp.CompletionList :=
  match selectStrategy (_strategies this) context with
  | Some strategy => completions strategy context
  | None => mret noCompletionResponse
  end.

(** [!doc] holds of undefined only: a member inherited from Object.prototype
    is a function or an object. *)
Definition provideCompletions (this : t) (uri : string) (position : Position)
    : Js.Result lsp.CompletionList :=
  match ParsedDocumentStore.find (documentStore this) uri with
  | None => mret noCompletionResponse
  | Some (ParsedDocumentStore.Document doc) =>
      let context := newContext (symbolStore this) doc position in
      suggest this context
  | Some (ParsedDocumentStore.Inherited member) =>
      context ← newContextOnInherited (symbolStore this) member position;
      suggest this context
  end.

End WithCollaborators.
Arguments t TD T : clear implicits.
End CompletionProvider.

(** ** Specification vocabulary *)

(** The descendant tokens of a node, left to right. *)
Fixpoint tokens (n : Node) : list Token.t :=
  match n with
  | TokenNode t => [t]
  | PhraseNode _ cs => flat_map tokens cs
  end.

Definition tokenEnd (t : Token.t) : Z := Token.offset t + Token.length t.

(** A sequence of numbers that never decreases from one entry to the next. *)
Fixpoint nonDecreasing (l : list Z) : bool :=
  match l with
  | x :: ((y :: _) as l') => (x <=? y) && nonDecreasing l'
  | _ => true
  end.

(** Child offsets are non-decreasing left to right. *)
Definition offsetsMonotone (n : Node) : bool :=
  nonDecreasing (map Token.offset (tokens n)).

(** Token ends (offset + length) are non-decreasing left to right, as they
    are when tokens do not overlap. *)
Definition endsMonotone (n : Node) : bool :=
  nonDecreasing (map tokenEnd (tokens n)).

(** Tokens as a lexer lays them out: none has a negative length and each
    starts at or after the end of the one before it. *)
Fixpoint laidOut (l : list Token.t) : bool :=
  match l with
  | [] => true
  | t :: l' =>
      (0 <=? Token.length t)
      && match l' with
         | [] => true
         | t' :: _ => (tokenEnd t <=? Token.offset t') && laidOut l'
         end
  end.

(** A string without the separator of anonymous names. *)
Fixpoint hashFree (s : string) : bool :=
  match s with
  | EmptyString => true
  | String c s' => negb (Ascii.eqb c "#") && hashFree s'
  end.

(** The end of [a]'s range is strictly after the end of [b]'s. *)
Definition endsAfter (a b : TextDocumentContentChangeEvent) : Prop :=
  line (end_ (range a)) > line (end_ (range b))
  \/ (line (end_ (range a)) = line (end_ (range b))
      /\ character (end_ (range a)) > character (end_ (range b))).

(** A text document that records the calls of [applyEdit] in call order;
    positions are those of a one-line text. *)
Module EditLog.
Record t : Type := mk { uri : string; calls : list TextDocumentContentChangeEvent }.
Definition record (d : t) (s e : Position) (txt : string) : t :=
  {| uri := uri d; calls := calls d ++ [mkChange (mkRange s e) txt] |}.
Definition init (u : string) : t := {| uri := u; calls := [] |}.
End EditLog.

#[global] Instance EditLog_ops : TextDocumentOps EditLog.t := {|
  td_uri := EditLog.uri;
  td_text := fun _ => EmptyString;
  positionAtOffset := fun _ o => mkPosition 0 o;
  applyEdit := EditLog.record
|}.

(** The edits [applyChanges] hands to the text document, in call order. *)
Definition appliedEdits (batch : list TextDocumentContentChangeEvent)
    : list TextDocumentContentChangeEvent :=
  EditLog.calls
    (ParsedDocument._textDocument
       (ParsedDocument.applyChanges
          (ParsedDocument.mk (EditLog.init EmptyString) (PhraseNode StatementList []) false) batch)).

(** The five strategies, in the order of the provider's list. *)
Inductive StrategyId : Type :=
| ClassTypeDesignatorId | ScopedAccessId | ObjectAccessId | SimpleVariableId | NameId.

Section Candidates.
Context {T : Type} `{!TreeTraverserOps T} `{!PhraseFields} `{!Util}
        `{!SymbolKind.Enum} `{!SymbolModifier.Enum}.

Definition strategyOf (symbolStore : SymbolStore.t) (maxSuggestions : Z) (id : StrategyId)
    : CompletionStrategy T :=
  match id with
  | ClassTypeDesignatorId => ClassTypeDesignatorCompletion.new maxSuggestions
  | ScopedAccessId => ScopedAccessCompletion.new symbolStore maxSuggestions
  | ObjectAccessId => ObjectAccessCompletion.new symbolStore maxSuggestions
  | SimpleVariableId => SimpleVariableCompletion.new maxSuggestions
  | NameId => NameCompletion.new maxSuggestions
  end.

Definition nodePhraseType (n : option Node) : option PhraseType :=
  match n with
  | Some (PhraseNode ty _) => Some ty
  | _ => None
  end.

(** The query text of a name completion, after relative names are resolved. *)
Definition nameQuery (context : Context.t T) (nsNameNode qNameNode : option Node) : string :=
  let nameResolver := Context.createNameResolver context in
  let text := NameResolver.namespaceNamePhraseText nameResolver nsNameNode (Context.offset context) in
  if phraseTypeIs (nodePhraseType qNameNode) RelativeQualifiedName
  then NameResolver.resolveRelative nameResolver text else text.

(** The candidates of a request: the matching keywords and the matching
    symbols of the index, before any truncation; [None] when the request has
    no query text or, for member access, no type to look members up on. *)
Definition candidates (symbolStore : SymbolStore.t) (id : StrategyId) (context : Context.t T)
    : option (list string * list PhpSymbol.t) :=
  let nameResolver := Context.createNameResolver context in
  let traverser := Context.createTraverser context in
  match id with
  | ClassTypeDesignatorId =>
      let '(traverser, nsNameNode) := parent traverser in
      let '(traverser, qNameNode) := parent traverser in
      let text := NameResolver.namespaceNamePhraseText nameResolver nsNameNode (Context.offset context) in
      if Js.nonEmpty text then
        Some (if phraseTypeIs (nodePhraseType qNameNode) QualifiedName
              then List.filter (fuzzyStringMatch text) ClassTypeDesignatorCompletion._keywords
              else [],
              SymbolStore.match_ (Context.symbolStore context)
                (nameQuery context nsNameNode qNameNode)
                ClassTypeDesignatorCompletion._symbolFilter)
      else None
  | NameId =>
      let '(traverser, nsNameNode) := parent traverser in
      let '(traverser, qNameNode) := parent traverser in
      let '(traverser, qNameParent) := parent traverser in
      let text := NameResolver.namespaceNamePhraseText nameResolver nsNameNode (Context.offset context) in
      if Js.nonEmpty text then
        Some (if phraseTypeIs (nodePhraseType qNameNode) QualifiedName
              then List.filter (fuzzyStringMatch text) NameCompletion._expressionKeywords
                   ++ (if phraseTypeIs (nodePhraseType qNameParent) StatementList
                       then List.filter (fuzzyStringMatch text) NameCompletion._statementKeywords
                       else [])
              else [],
              SymbolStore.match_ (Context.symbolStore context)
                (nameQuery context nsNameNode qNameNode)
                NameCompletion._symbolFilter)
      else None
  | SimpleVariableId =>
      let text := Context.word context in
      if Js.nonEmpty text then
        match Context.scopeSymbol context with
        | Some scope =>
            Some ([],
                  List.filter
                    (fun x => (Js.band (PhpSymbol.kind x)
                                       (Js.bor SymbolKind.Variable_ SymbolKind.Parameter_) >? 0)
                              && Js.startsWith (PhpSymbol.name x) text)
                    (PhpSymbol.children scope)
                  ++ SymbolStore.match_ (Context.symbolStore context) text
                       SimpleVariableCompletion._isBuiltInGlobalVar)
        | None => None
        end
      else None
  | ScopedAccessId =>
      match snd (ancestor ScopedAccessCompletion._isScopedAccessExpr traverser) with
      | Some expr =>
          let typeNames :=
            TypeString.atomicClassArray (Context.resolveExpressionType context (scope expr)) in
          let text := Context.word context in
          match typeNames with
          | [] => None
          | _ =>
              Some ([],
                    SymbolStore.lookupMembersOnTypes symbolStore
                      (ScopedAccessCompletion.memberQueries context
                         (ScopedAccessCompletion._createMembersPredicate text)
                         (ScopedAccessCompletion._createBaseMembersPredicate text)
                         (ScopedAccessCompletion._createOwnMembersPredicate text) typeNames))
          end
      | None => None
      end
  | ObjectAccessId =>
      match snd (ancestor ObjectAccessCompletion._isMemberAccessExpr traverser) with
      | Some expr =>
          let typeNames :=
            TypeString.atomicClassArray (Context.resolveExpressionType context (variable expr)) in
          let text := Context.word context in
          match typeNames with
          | [] => None
          | _ =>
              Some ([],
                    SymbolStore.lookupMembersOnTypes symbolStore
                      (ObjectAccessCompletion.memberQueries context
                         (ObjectAccessCompletion._createMembersPredicate text)
                         (ObjectAccessCompletion._createBaseMembersPredicate text)
                         (ObjectAccessCompletion._createOwnMembersPredicate text) typeNames))
          end
      | None => None
      end
  end.

(** What the truncation policy promises of a result, given the matching
    keywords and the matching symbols of the request. *)
Definition capped (maxSuggestions : Z) (keywords : list string) (symbols : list PhpSymbol.t)
    (result : lsp.CompletionList) : Prop :=
  let matched := Js.len keywords + Js.len symbols in
  (lsp.isIncomplete result = true <-> matched > maxSuggestions)
  /\ Js.len (lsp.items result)
     = Js.len keywords + Z.max 0 (Z.min (Js.len symbols) (maxSuggestions - Js.len keywords))
  /\ (Js.len keywords <= maxSuggestions ->
      Js.len (lsp.items result) <= maxSuggestions
      /\ (matched > maxSuggestions -> Js.len (lsp.items result) = maxSuggestions)
      /\ (matched <= maxSuggestions -> Js.len (lsp.items result) = matched)).

(** The resolved type of the accessed expression of a member access. *)
Definition accessedType (id : StrategyId) (context : Context.t T) : option TypeString.t :=
  let traverser := Context.createTraverser context in
  match id with
  | ScopedAccessId =>
      match snd (ancestor ScopedAccessCompletion._isScopedAccessExpr traverser) with
      | Some expr => Some (Context.resolveExpressionType context (scope expr))
      | None => None
      end
  | ObjectAccessId =>
      match snd (ancestor ObjectAccessCompletion._isMemberAccessExpr traverser) with
      | Some expr => Some (Context.resolveExpressionType context (variable expr))
      | None => None
      end
  | _ => None
  end.

End Candidates.

(** ** Collaborators for concrete runs *)

Module TreeTraverser.

(** The cursor: the current node followed by its ancestors, nearest first. *)
Definition Spine : Type := list Node.

Fixpoint nearest (predicate : Node -> bool) (spine : Spine) : Spine * option Node :=
  match spine with
  | [] => ([], None)
  | n :: rest => if predicate n then (spine, Some n) else nearest predicate rest
  end.

(** Modelled from the spec: the TreeTraverser of types.ts, which is not
    among the embedded files.  The spec calls it a "stateful cursor over a
    tree supporting ancestor/parent queries relative to current visitation
    position": [parent] moves the cursor to the parent and returns it,
    [ancestor] moves it to the nearest proper ancestor the predicate accepts. *)
Definition moving : TreeTraverserOps Spine := {|
  node := fun spine => head spine;
  parent := fun spine => (tail spine, head (tail spine));
  ancestor := fun predicate spine => nearest predicate (tail spine)
|}.

(** The other reading the spec leaves open: [parent] is "hard-coded to
    ancestor depth 1" and never moves the cursor. *)
Definition depthOne : TreeTraverserOps Spine := {|
  node := fun spine => head spine;
  parent := fun spine => (spine, head (tail spine));
  ancestor := fun predicate spine => (spine, snd (nearest predicate (tail spine)))
|}.

(** The cursor is on a name token of the name of a class type designator
    (the class-instantiation construct [new Name]). *)
Definition onClassTypeDesignatorName (spine : Spine) : bool :=
  match spine with
  | TokenNode t :: PhraseNode NamespaceName _ :: PhraseNode q _
      :: PhraseNode ClassTypeDesignator _ :: _ =>
      bool_decide (Token.tokenType t ∈ [Backslash; Name])
      && bool_decide (q ∈ [FullyQualifiedName; QualifiedName; RelativeQualifiedName])
  | _ => false
  end.

End TreeTraverser.

Module Sample.

(** One-bit flags for the two enumerations. *)
Definition kinds : SymbolKind.Enum := {|
  SymbolKind.Class_ := 1; SymbolKind.Constant := 8; SymbolKind.Property := 16;
  SymbolKind.Method := 32; SymbolKind.Function_ := 64; SymbolKind.Parameter_ := 128;
  SymbolKind.Variable_ := 256; SymbolKind.ClassConstant := 1024
|}.

Definition Public : Z := 1.

Definition modifiers : SymbolModifier.Enum := {|
  SymbolModifier.Protected := 2; SymbolModifier.Private := 4;
  SymbolModifier.Abstract := 16; SymbolModifier.Static := 32;
  SymbolModifier.Anonymous := 512; SymbolModifier.Use := 4096
|}.

(** A matcher: the characters of the query occur in the subject, in order. *)
Fixpoint subsequence (query subject : string) : bool :=
  match subject with
  | EmptyString => negb (Js.nonEmpty query)
  | String c subject' =>
      match query with
      | EmptyString => true
      | String q query' =>
          if Ascii.eqb q c then subsequence query' subject' else subsequence query subject'
      end
  end.

Definition util : Util := {| fuzzyStringMatch := subsequence |}.

(** The accessed expression is the first child of an access phrase. *)
Definition fields : PhraseFields := {|
  scope := fun n => match n with PhraseNode _ (c :: _) => Some c | _ => None end;
  variable := fun n => match n with PhraseNode _ (c :: _) => Some c | _ => None end
|}.

(** A symbol store over a table of classes and their members: a member
    query returns the members of the named class its predicate accepts. *)
Definition membersOf (classes : list (string * list PhpSymbol.t)) (typeName : string)
    : list PhpSymbol.t :=
  flat_map (fun c => if String.eqb (fst c) typeName then snd c else []) classes.

Definition store (globals : list PhpSymbol.t) (classes : list (string * list PhpSymbol.t))
    : SymbolStore.t := {|
  SymbolStore.match_ :=
    fun text predicate =>
      List.filter (fun s => predicate s && subsequence text (PhpSymbol.name s)) globals;
  SymbolStore.lookupMembersOnTypes :=
    fun queries =>
      flat_map (fun q => List.filter (memberPredicate q) (membersOf classes (typeName q))) queries
|}.

Definition symbol (kind : Z) (name : string) (modifiers : Z) : PhpSymbol.t :=
  {| PhpSymbol.kind := kind; PhpSymbol.name := name; PhpSymbol.modifiers := modifiers;
     PhpSymbol.description := None; PhpSymbol.type := None; PhpSymbol.location := None;
     PhpSymbol.associated := None; PhpSymbol.children := [] |}.

Definition resolver (text : string) : NameResolver.t := {|
  NameResolver.namespaceName := EmptyString;
  NameResolver.namespaceNamePhraseText := fun _ _ => text;
  NameResolver.resolveRelative := fun t => t
|}.

Definition context (symbolStore : SymbolStore.t) (spine : TreeTraverser.Spine)
    (text thisName thisBaseName : string) (types : list string)
    : Context.t TreeTraverser.Spine := {|
  Context.symbolStore := symbolStore;
  Context.createTraverser := spine;
  Context.createNameResolver := resolver text;
  Context.offset := 0;
  Context.word := text;
  Context.scopeSymbol := None;
  Context.thisName := thisName;
  Context.thisBaseName := thisBaseName;
  Context.resolveExpressionType := fun _ => TypeString.mk EmptyString types
|}.

(** A context factory for a request whose cursor position is known; handed a
    member of Object.prototype in place of a document, the constructor throws. *)
Definition factory (spine : TreeTraverser.Spine) (text thisName thisBaseName : string)
    (types : list string) : ContextFactory EditLog.t TreeTraverser.Spine := {|
  newContext := fun symbolStore _ _ => context symbolStore spine text thisName thisBaseName types;
  newContextOnInherited := fun _ _ _ => Js.Throw Js.TypeError
|}.

Definition token (ty : TokenType) (offset length : Z) : Node :=
  TokenNode (Token.mk ty offset length).

Definition document (u : string) (tree : Node) : ParsedDocument.t EditLog.t :=
  ParsedDocument.mk (EditLog.init u) tree false.

(** [new Foo]: the cursor is on the name token of the class type designator. *)
Definition newFooSpine : TreeTraverser.Spine :=
  let name := token Name 4 3 in
  let nsName := PhraseNode NamespaceName [name] in
  let qName := PhraseNode QualifiedName [nsName] in
  let designator := PhraseNode ClassTypeDesignator [qName] in
  [name; nsName; qName; designator;
   PhraseNode (OtherPhrase 0) [token (OtherToken 0) 0 3; designator];
   PhraseNode StatementList []].

(** [$a->g]: the cursor is on the member name of a property access. *)
Definition memberAccessSpine : TreeTraverser.Spine :=
  let var := PhraseNode SimpleVariable [token VariableName 0 2] in
  let arrow := token Arrow 2 2 in
  let access := PhraseNode PropertyAccessExpression [var; arrow; token Name 4 1] in
  [arrow; access; PhraseNode StatementList [access]].

(** [A::]: the cursor is on the double colon of a scoped access. *)
Definition scopedAccessSpine : TreeTraverser.Spine :=
  let colons := token ColonColon 1 2 in
  let access := PhraseNode ErrorScopedAccessExpression [token Name 0 1; colons] in
  [colons; access; PhraseNode StatementList [access]].

(** Class [A] with a private method [f] and a public method [g]; class [B]
    extends [A] and declares nothing. *)
Definition f : PhpSymbol.t := symbol 32 "f" 4.
Definition g : PhpSymbol.t := symbol 32 "g" 1.
Definition classesAB : list (string * list PhpSymbol.t) :=
  [("A", [f; g]); ("B", [])]%string.

(** An index with two classes and a function. *)
Definition index : SymbolStore.t :=
  store [symbol 1 "Foo" 0; symbol 1 "FooBar" 0; symbol 64 "foo" 0] classesAB.

Definition keywordItem (kw : string) : lsp.CompletionItem :=
  {| lsp.label := kw; lsp.kind := lsp.CompletionItemKind.Keyword; lsp.detail := None;
     lsp.documentation := None; lsp.insertText := None; lsp.insertTextFormat := None |}.

(** Two tokens on one line, the second inside the span of the first. *)
Definition overlapping : Node :=
  PhraseNode (OtherPhrase 0) [token (OtherToken 0) 0 10; token (OtherToken 0) 5 1].

Definition twoTokens : Node :=
  PhraseNode (OtherPhrase 0)
    [PhraseNode (OtherPhrase 1) []; token (OtherToken 0) 0 3;
     PhraseNode (OtherPhrase 1) [token (OtherToken 0) 4 2]; PhraseNode (OtherPhrase 1) []].

(** A store holding one open document. *)
Definition documents : ParsedDocumentStore.t EditLog.t :=
  {| ParsedDocumentStore._parsedDocumentmap :=
       {[ "file:///a.php"%string := document "file:///a.php" (PhraseNode StatementList []) ]};
     ParsedDocumentStore._unsubscribeMap := {[ "file:///a.php"%string ]} |}.

Definition edit (endLine endCharacter : Z) (txt : string) : TextDocumentContentChangeEvent :=
  mkChange (mkRange (mkPosition endLine 0) (mkPosition endLine endCharacter)) txt.

End Sample.

(** ** The rest of parsedDocument.ts *)

(** A JavaScript string as its sequence of UTF-16 code units. *)
Definition CodeUnits : Type := list N.

(** The code units of a text of Latin-1 characters, one unit a character. *)
Definition codeUnitsOf (s : string) : CodeUnits := map N_of_ascii (list_ascii_of_string s).

(** The text queries of the text document the document model uses besides
    [positionAtOffset] and [applyEdit] (textDocument.ts). *)
Class TextDocumentText (TD : Type) : Type := {
  lineSubstring : TD -> Z -> CodeUnits;
  textAtOffset : TD -> Z -> Z -> string
}.

(** [_wordRegex = /[$a-zA-Z_\x80-\xff][\\a-zA-Z0-9_\x80-\xff]*$/]: the classes
    range over code units, so [\x80-\xff] is the units 128 to 255 and no
    unit above 255 belongs to a class. *)
Module WordRegex.

Definition between (lo hi c : N) : bool := ((lo <=? c) && (c <=? hi))%N.

Definition letter (c : N) : bool := between 97 122 c || between 65 90 c.

(** [[$a-zA-Z_\x80-\xff]] *)
Definition first (c : N) : bool :=
  (c =? 36)%N || letter c || (c =? 95)%N || between 128 255 c.

(** [[\\a-zA-Z0-9_\x80-\xff]] *)
Definition rest (c : N) : bool :=
  (c =? 92)%N || letter c || between 48 57 c || (c =? 95)%N || between 128 255 c.

(** The pattern matches the whole of [s]: the star is followed by [$]. *)
Definition matchesHere (s : CodeUnits) : bool :=
  match s with
  | [] => false
  | c :: s' => first c && forallb rest s'
  end.

(** [String.prototype.match]: the match at the leftmost start that has one. *)
Fixpoint exec (s : CodeUnits) : option CodeUnits :=
  if matchesHere s then Some s
  else match s with
       | [] => None
       | _ :: s' => exec s'
       end.

End WordRegex.

Definition wordAtOffset {TD : Type} `{!TextDocumentText TD}
    (doc : ParsedDocument.t TD) (offset : Z) : CodeUnits :=
  let lineText := lineSubstring (ParsedDocument._textDocument doc) offset in
  match WordRegex.exec lineText with
  | Some m => m
  | None => []
  end.

Definition isOffsetInToken (offset : Z) (t : option Node) : bool :=
  match t with
  | Some (TokenNode tk) =>
      ParsedDocument.isToken t None
      && (Token.offset tk <=? offset)
      && (Token.offset tk + Token.length tk - 1 >=? offset)
  | _ => false
  end.

Definition tokenText {TD : Type} `{!TextDocumentText TD}
    (doc : ParsedDocument.t TD) (t : option Node) : string :=
  match t with
  | Some (TokenNode tk) =>
      textAtOffset (ParsedDocument._textDocument doc) (Token.offset tk) (Token.length tk)
  | _ => EmptyString
  end.

(** [TreeTraverser.traverse] (types.ts) for a visitor that has a [postOrder]
    method only; the visitor object is the state [V]. *)
Class TreeTraversal : Type := {
  traverse : forall {V : Type}, (V -> Node -> list Node -> V) -> list Node -> V -> V
}.

Module ToStringVisitor.
Section WithTextDocument.
Context {TD : Type} `{!TextDocumentText TD}.

Record t : Type := mk {
  _text : string;
  _doc : ParsedDocument.t TD;
  _ignore : option (list TokenType)
}.

(** The constructor takes [ignore] and assigns [_text] and [_doc] only:
    [_ignore] stays undefined. *)
Definition new (doc : ParsedDocument.t TD) (ignore : option (list TokenType)) : t :=
  {| _text := EmptyString; _doc := doc; _ignore := None |}.

Definition text (v : t) : string := _text v.

Definition postOrder (v : t) (node : Node) (spine : list Node) : t :=
  match node with
  | TokenNode tk =>
      if ParsedDocument.isToken (Some node) None
         && match _ignore v with
            | None => true
            | Some ignore => negb (ParsedDocument.indexOfIn (Token.tokenType tk) ignore)
            end
      then {| _text := _text v +:+ tokenText (_doc v) (Some node);
              _doc := _doc v; _ignore := _ignore v |}
      else v
  | PhraseNode _ _ => v
  end.

End WithTextDocument.
Arguments t TD : clear implicits.
End ToStringVisitor.

Definition nodeText {TD : Type} `{!TextDocumentText TD} `{!TreeTraversal}
    (doc : ParsedDocument.t TD) (node : option Node) (ignore : option (list TokenType))
    : string :=
  match node with
  | None => EmptyString
  | Some n =>
      let visitor := ToStringVisitor.new doc ignore in
      let visitor := traverse ToStringVisitor.postOrder [n] visitor in
      ToStringVisitor.text visitor
  end.

(** The nodes of a subtree in post order: children left to right, then the node. *)
Fixpoint postOrderNodes (n : Node) : list Node :=
  match n with
  | TokenNode _ => [n]
  | PhraseNode _ cs => flat_map postOrderNodes cs ++ [n]
  end.

(** A traversal that calls [postOrder] once on every node of the subtree, in
    post order. *)
Definition visitsInPostOrder `{!TreeTraversal} : Prop :=
  forall (V : Type) (f : V -> Node -> list Node -> V) (g : V -> Node -> V) (root : Node) (v : V),
    (forall v n spine, f v n spine = g v n) ->
    traverse f [root] v = fold_left g (postOrderNodes root) v.

(** ** Sequences of store operations *)

Inductive StoreOp (TD : Type) : Type :=
| OpAdd (doc : ParsedDocument.t TD)
| OpRemove (uri : string).
Arguments OpAdd {TD}.
Arguments OpRemove {TD}.

(** A call that throws leaves the store as it was. *)
Definition applyOp {TD : Type} `{!TextDocumentOps TD}
    (s : ParsedDocumentStore.t TD) (op : StoreOp TD) : ParsedDocumentStore.t TD :=
  match op with
  | OpAdd doc =>
      match ParsedDocumentStore.add s doc with
      | Js.Ok s' => s'
      | Js.Throw _ => s
      end
  | OpRemove uri =>
      match ParsedDocumentStore.remove s uri with
      | Js.Ok s' => s'
      | Js.Throw _ => s
      end
  end.

Definition runOps {TD : Type} `{!TextDocumentOps TD}
    (ops : list (StoreOp TD)) : ParsedDocumentStore.t TD :=
  fold_left applyOp ops ParsedDocumentStore.empty.

(** No two edits of the batch end at the same position. *)
Definition distinctEnds (batch : list TextDocumentContentChangeEvent) : Prop :=
  forall a b, In a batch -> In b batch -> end_ (range a) = end_ (range b) -> a = b.

(** A text document over one line of text, and a post-order traversal. *)
Module SampleText.

Record t : Type := mk { uri : string; content : string }.

#[global] Instance ops : TextDocumentOps t := {|
  td_uri := uri;
  td_text := content;
  positionAtOffset := fun _ o => mkPosition 0 o;
  applyEdit := fun d _ _ _ => d
|}.

#[global] Instance text : TextDocumentText t := {|
  lineSubstring := fun d o => codeUnitsOf (String.substring 0 (Z.to_nat o) (content d));
  textAtOffset := fun d o n => String.substring (Z.to_nat o) (Z.to_nat n) (content d)
|}.

Definition traversal : TreeTraversal := {|
  traverse := fun V f roots v =>
    fold_left (fun v n => f v n []) (flat_map postOrderNodes roots) v
|}.

Definition document (u content : string) (tree : Node) : ParsedDocument.t t :=
  ParsedDocument.mk (mk u content) tree false.

(** [new Foo] as a statement list. *)
Definition newFoo : Node :=
  PhraseNode StatementList
    [PhraseNode (OtherPhrase 0)
       [Sample.token (OtherToken 0) 0 3; Sample.token (OtherToken 1) 3 1;
        PhraseNode ClassTypeDesignator
          [PhraseNode QualifiedName [PhraseNode NamespaceName [Sample.token Name 4 3]]]]].

End SampleText.

(** ** Presentation of candidates *)

Section Presentation.
Context {T : Type} `{!TreeTraverserOps T} `{!PhraseFields} `{!Util}
        `{!SymbolKind.Enum} `{!SymbolModifier.Enum}.

(** How a strategy turns a candidate symbol of a request into an item. *)
Definition toItemOf (id : StrategyId) (context : Context.t T)
    : PhpSymbol.t -> Js.Result lsp.CompletionItem :=
  let nameResolver := Context.createNameResolver context in
  let qNameNode := snd (parent (fst (parent (Context.createTraverser context)))) in
  match id with
  | ClassTypeDesignatorId =>
      fun s => Js.Ok (toNameCompletionItem s (NameResolver.namespaceName nameResolver)
                        (nodePhraseType qNameNode) (Some lsp.SymbolKind.Constructor))
  | NameId =>
      fun s => Js.Ok (toNameCompletionItem s (NameResolver.namespaceName nameResolver)
                        (nodePhraseType qNameNode) None)
  | SimpleVariableId => fun s => Js.Ok (SimpleVariableCompletion._toCompletionItem s)
  | ScopedAccessId => ScopedAccessCompletion._toCompletionItem
  | ObjectAccessId => ObjectAccessCompletion._toCompletionItem
  end.

(** The kinds a member-access strategy can present. *)
Definition presentable (id : StrategyId) (s : PhpSymbol.t) : bool :=
  match id with
  | ScopedAccessId =>
      (PhpSymbol.kind s =? SymbolKind.ClassConstant)
      || (PhpSymbol.kind s =? SymbolKind.Method)
      || (PhpSymbol.kind s =? SymbolKind.Property)
  | ObjectAccessId =>
      (PhpSymbol.kind s =? SymbolKind.Method) || (PhpSymbol.kind s =? SymbolKind.Property)
  | _ => true
  end.

(** The predicate a member query gets for a type name. *)
Definition tierOf (context : Context.t T) (memberPred basePred ownPred : PhpSymbol.t -> bool)
    (typeName : string) : PhpSymbol.t -> bool :=
  if String.eqb typeName (Context.thisName context) then ownPred
  else if String.eqb typeName (Context.thisBaseName context) then basePred
  else memberPred.

End Presentation.

Definition keywordItem (kw : string) : lsp.CompletionItem :=
  {| lsp.label := kw; lsp.kind := lsp.CompletionItemKind.Keyword; lsp.detail := None;
     lsp.documentation := None; lsp.insertText := None; lsp.insertTextFormat := None |}.

(** [$name] after a double colon: the cursor is on the dollar of the member name. *)
Definition staticPropertySpine : TreeTraverser.Spine :=
  let dollar := Sample.token Dollar 3 1 in
  let var := PhraseNode SimpleVariable [dollar; Sample.token Name 4 1] in
  let member := PhraseNode ScopedMemberName [var] in
  let access :=
    PhraseNode ScopedPropertyAccessExpression
      [Sample.token Name 0 1; Sample.token ColonColon 1 2; member] in
  [dollar; var; member; access; PhraseNode StatementList [access]].

(** An index whose class [A] has a static member with both the method and
    the property bit. *)
Definition mixedKindIndex : SymbolStore.t :=
  Sample.store [] [("A"%string, [Sample.symbol 48 "x" 32])].

(** * Properties of the parsed document *)

Section TreeInduction.
Variable P : Node -> Prop.
Hypothesis P_token : forall t, P (TokenNode t).
Hypothesis P_phrase : forall ty cs, Forall P cs -> P (PhraseNode ty cs).

Lemma Node_nested_ind : forall n, P n.
Proof.
  fix IH 1. intros [t | ty cs].
  - apply P_token.
  - apply P_phrase. induction cs as [| c cs IHcs]; constructor; [apply IH | exact IHcs].
Qed.
End TreeInduction.

Lemma firstToken_head (n : Node) : ParsedDocument.firstToken n = head (tokens n).
Proof.
  induction n as [t | ty cs IH] using Node_nested_ind; [reflexivity |].
  simpl. induction IH as [| c cs Hc _ IHcs]; [reflexivity |].
  simpl. rewrite Hc, IHcs. destruct (tokens c); reflexivity.
Qed.

Lemma lastToken_last (n : Node) : ParsedDocument.lastToken n = last (tokens n).
Proof.
  induction n as [t | ty cs IH] using Node_nested_ind; [reflexivity |].
  simpl. induction IH as [| c cs Hc _ IHcs]; [reflexivity |].
  simpl. rewrite last_app, IHcs, Hc. reflexivity.
Qed.

Lemma nonDecreasing_tail (x : Z) (l : list Z) :
  nonDecreasing (x :: l) = true -> nonDecreasing l = true.
Proof. destruct l as [| y l]; [reflexivity |]. simpl. intros H. apply andb_prop in H. tauto. Qed.

Lemma nonDecreasing_head (x : Z) (l : list Z) :
  nonDecreasing (x :: l) = true -> forall y, In y l -> x <= y.
Proof.
  revert x. induction l as [| z l IH]; intros x H y Hy; [destruct Hy |].
  simpl in H. apply andb_prop in H. destruct H as [Hxz Hrest].
  apply Z.leb_le in Hxz. destruct Hy as [-> | Hy]; [exact Hxz |].
  specialize (IH z Hrest y Hy). lia.
Qed.

Lemma nonDecreasing_last (l : list Z) (z : Z) :
  nonDecreasing l = true -> last l = Some z -> forall y, In y l -> y <= z.
Proof.
  induction l as [| x l IH]; intros H Hlast y Hy; [destruct Hy |].
  destruct l as [| x' l].
  - simpl in Hlast. injection Hlast as <-. destruct Hy as [-> | []]. lia.
  - assert (Hz : In z (x' :: l)).
    { apply list_elem_of_In, (last_Some_elem_of (x' :: l)). exact Hlast. }
    destruct Hy as [-> | Hy].
    + apply (nonDecreasing_head _ _ H z Hz).
    + apply IH; [exact (nonDecreasing_tail _ _ H) | exact Hlast | exact Hy].
Qed.

Lemma last_map_option {A B} (f : A -> B) (l : list A) : last (map f l) = option_map f (last l).
Proof.
  induction l as [| x [| y l] IH]; [reflexivity | reflexivity |].
  change (last (map f (y :: l)) = option_map f (last (y :: l))). exact IH.
Qed.

Lemma phraseRange_no_tokens {TD : Type} `{!TextDocumentOps TD}
    (doc : ParsedDocument.t TD) (n : Node) :
  tokens n = [] -> ParsedDocument.phraseRange doc n = None.
Proof.
  intros H. unfold ParsedDocument.phraseRange.
  rewrite firstToken_head, H. reflexivity.
Qed.

Lemma phraseRange_some_tokens {TD : Type} `{!TextDocumentOps TD}
    (doc : ParsedDocument.t TD) (n : Node) :
  tokens n <> [] -> exists r, ParsedDocument.phraseRange doc n = Some r.
Proof.
  intros H. unfold ParsedDocument.phraseRange.
  rewrite firstToken_head, lastToken_last.
  destruct (tokens n) as [| t l] eqn:E; [congruence |].
  destruct (last (t :: l)) as [tl |] eqn:El.
  - simpl. eauto.
  - apply last_None in El. discriminate.
Qed.

(** Tokens that do not overlap have non-decreasing offsets and ends. *)
Lemma laidOut_monotone (n : Node) :
  laidOut (tokens n) = true -> offsetsMonotone n = true /\ endsMonotone n = true.
Proof.
  unfold offsetsMonotone, endsMonotone.
  induction (tokens n) as [| t l IH]; [split; reflexivity |].
  destruct l as [| t' l]; [split; reflexivity |].
  intros Hl. change (laidOut (t :: t' :: l))
    with ((0 <=? Token.length t) && ((tokenEnd t <=? Token.offset t') && laidOut (t' :: l))) in Hl.
  apply andb_prop in Hl. destruct Hl as [Hlen Hl].
  apply andb_prop in Hl. destruct Hl as [Hnext Hrest].
  destruct (IH Hrest) as [IHo IHe].
  assert (Hlen' : 0 <= Token.length t') by
    (simpl in Hrest; apply andb_prop in Hrest; destruct Hrest as [Hz _]; apply Z.leb_le; exact Hz).
  apply Z.leb_le in Hlen, Hnext. unfold tokenEnd in Hnext.
  split.
  - change (((Token.offset t <=? Token.offset t')
             && nonDecreasing (map Token.offset (t' :: l))) = true).
    rewrite IHo, andb_true_r. apply Z.leb_le. lia.
  - change (((tokenEnd t <=? tokenEnd t')
             && nonDecreasing (map tokenEnd (t' :: l))) = true).
    rewrite IHe, andb_true_r. apply Z.leb_le. unfold tokenEnd. lia.
Qed.

(** C5.  Under the tree invariant that offsets do not decrease from left
    to right, a node with at least one descendant token has a first token
    whose offset is at most every descendant token's offset, and a last
    token; the end (offset + length) of the last token is at least every
    descendant token's end when the ends do not decrease either, as in every
    tree whose tokens do not overlap.  A node without a token has neither a
    first nor a last token, and its phrase range is none. *)
Theorem C5_first_and_last_token_bound (n : Node) :
  offsetsMonotone n = true ->
  match tokens n with
  | [] =>
      ParsedDocument.firstToken n = None /\ ParsedDocument.lastToken n = None
      /\ forall (TD : Type) (ops : TextDocumentOps TD) (doc : ParsedDocument.t TD),
           ParsedDocument.phraseRange doc n = None
  | _ :: _ =>
      exists tFirst tLast,
        ParsedDocument.firstToken n = Some tFirst
        /\ ParsedDocument.lastToken n = Some tLast
        /\ (forall t, In t (tokens n) -> Token.offset tFirst <= Token.offset t)
        /\ (endsMonotone n = true \/ laidOut (tokens n) = true ->
            forall t, In t (tokens n) -> tokenEnd t <= tokenEnd tLast)
  end.
Proof.
  intros Hoff.
  assert (Hends : endsMonotone n = true \/ laidOut (tokens n) = true -> endsMonotone n = true).
  { intros [He | Hl]; [exact He | exact (proj2 (laidOut_monotone n Hl))]. }
  unfold offsetsMonotone, endsMonotone in *.
  destruct (tokens n) as [| t0 l] eqn:E.
  - rewrite firstToken_head, lastToken_last, E. repeat split.
    intros TD ops doc. apply phraseRange_no_tokens. exact E.
  - destruct (last (t0 :: l)) as [tl |] eqn:El; [| apply last_None in El; discriminate].
    exists t0, tl. rewrite firstToken_head, lastToken_last, E.
    split; [reflexivity |]. split; [exact El |]. split.
    + intros t [-> | Hin]; [lia |].
      apply (nonDecreasing_head _ _ Hoff). apply in_map. exact Hin.
    + intros Hinv t Hin. apply (nonDecreasing_last _ (tokenEnd tl) (Hends Hinv)).
      * rewrite last_map_option, El. reflexivity.
      * apply in_map. exact Hin.
Qed.

Lemma C5_first_and_last_token_bound_witness :
  exists tFirst tLast,
    ParsedDocument.firstToken Sample.twoTokens = Some tFirst
    /\ ParsedDocument.lastToken Sample.twoTokens = Some tLast
    /\ (forall t, In t (tokens Sample.twoTokens) -> Token.offset tFirst <= Token.offset t)
    /\ (forall t, In t (tokens Sample.twoTokens) -> tokenEnd t <= tokenEnd tLast).
Proof.
  destruct (C5_first_and_last_token_bound Sample.twoTokens eq_refl)
    as (tFirst & tLast & Hfirst & Hlast & Hoffsets & Hends).
  exists tFirst, tLast. split; [exact Hfirst |]. split; [exact Hlast |].
  split; [exact Hoffsets |]. apply Hends. right. reflexivity.
Defined.

(** Without the ends, non-decreasing offsets do not bound the end of the
    last token: such a tree has a token inside the span of its left
    neighbour. *)
Example offsets_alone_do_not_bound_the_end :
  offsetsMonotone Sample.overlapping = true
  /\ laidOut (tokens Sample.overlapping) = false
  /\ exists tLast t,
       ParsedDocument.lastToken Sample.overlapping = Some tLast
       /\ In t (tokens Sample.overlapping)
       /\ ~ (tokenEnd tLast >= tokenEnd t).
Proof.
  split; [reflexivity |]. split; [reflexivity |].
  exists (Token.mk (OtherToken 0) 5 1), (Token.mk (OtherToken 0) 0 10).
  split; [reflexivity |]. split; [left; reflexivity |].
  unfold tokenEnd; simpl. lia.
Qed.

(** ** Anonymous names *)

Lemma numToString_inj (a b : Z) : Js.numToString a = Js.numToString b -> a = b.
Proof.
  unfold Js.numToString. intros H.
  apply DecimalZ.to_int_inj.
  assert (E : NilEmpty.int_of_string (NilEmpty.string_of_int (Z.to_int a))
              = NilEmpty.int_of_string (NilEmpty.string_of_int (Z.to_int b)))
    by (rewrite H; reflexivity).
  rewrite !NilEmpty.isi in E. congruence.
Qed.

Lemma string_of_uint_hashFree (d : Decimal.uint) :
  hashFree (NilEmpty.string_of_uint d) = true.
Proof. induction d; simpl; auto. Qed.

Lemma numToString_hashFree (z : Z) : hashFree (Js.numToString z) = true.
Proof.
  unfold Js.numToString, NilEmpty.string_of_int.
  destruct (Z.to_int z); simpl; apply string_of_uint_hashFree.
Qed.

(** Two hash-free fields followed by the separator split in one way only. *)
Lemma field_split (a a' r r' : string) :
  hashFree a = true -> hashFree a' = true ->
  a +:+ String "#" r = a' +:+ String "#" r' -> a = a' /\ r = r'.
Proof.
  revert a'. induction a as [| c a IH]; intros [| c' a'] Ha Ha' H; simpl in *.
  - injection H as ->. auto.
  - injection H as <- _. discriminate.
  - injection H as -> _. discriminate.
  - injection H as -> H.
    apply andb_prop in Ha, Ha'. destruct Ha as [_ Ha], Ha' as [_ Ha'].
    destruct (IH a' Ha Ha' H) as [-> ->]. auto.
Qed.

Lemma anonymousName_suffix_inj (a b c d a' b' c' d' : Z) :
  Js.join "#" [Js.numToString a; Js.numToString b; Js.numToString c; Js.numToString d]
  = Js.join "#" [Js.numToString a'; Js.numToString b'; Js.numToString c'; Js.numToString d'] ->
  a = a' /\ b = b' /\ c = c' /\ d = d'.
Proof.
  unfold Js.join. simpl. intros H.
  apply field_split in H; try apply numToString_hashFree. destruct H as [Ha H].
  apply field_split in H; try apply numToString_hashFree. destruct H as [Hb H].
  apply field_split in H; try apply numToString_hashFree. destruct H as [Hc Hd].
  repeat split; apply numToString_inj; assumption.
Qed.

(** C9.  Two phrases whose ranges have the same start and end line and
    character get the same anonymous name, and two phrases whose ranges
    differ in one of the four coordinates get different names; the phrases
    may belong to different parses of a document. *)
Theorem C9_anonymous_name_injective {TD : Type} `{!TextDocumentOps TD}
    (doc1 doc2 : ParsedDocument.t TD) (p1 p2 : Node) (r1 r2 : Range) :
  ParsedDocument.phraseRange doc1 p1 = Some r1 ->
  ParsedDocument.phraseRange doc2 p2 = Some r2 ->
  (exists name, ParsedDocument.createAnonymousName doc1 p1 = Js.Ok name)
  /\ (ParsedDocument.createAnonymousName doc1 p1 = ParsedDocument.createAnonymousName doc2 p2
      <-> line (start r1) = line (start r2)
          /\ character (start r1) = character (start r2)
          /\ line (end_ r1) = line (end_ r2)
          /\ character (end_ r1) = character (end_ r2)).
Proof.
  intros H1 H2. unfold ParsedDocument.createAnonymousName. rewrite H1, H2.
  split; [eauto |]. split.
  - intros H. injection H as H. apply anonymousName_suffix_inj in H. exact H.
  - intros (-> & -> & -> & ->). reflexivity.
Qed.

Lemma C9_anonymous_name_injective_witness :
  (exists name,
      ParsedDocument.createAnonymousName (Sample.document "a.php" Sample.twoTokens)
        Sample.twoTokens = Js.Ok name)
  /\ (ParsedDocument.createAnonymousName (Sample.document "a.php" Sample.twoTokens)
        Sample.twoTokens
      = ParsedDocument.createAnonymousName (Sample.document "a.php" Sample.overlapping)
          Sample.overlapping
      <-> 0 = 0 /\ 0 = 0 /\ 0 = 0 /\ 6 = 6).
Proof.
  exact (C9_anonymous_name_injective
           (Sample.document "a.php" Sample.twoTokens)
           (Sample.document "a.php" Sample.overlapping)
           Sample.twoTokens Sample.overlapping
           (mkRange (mkPosition 0 0) (mkPosition 0 6))
           (mkRange (mkPosition 0 0) (mkPosition 0 6))
           eq_refl eq_refl).
Defined.

Example anonymous_name_run :
  ParsedDocument.createAnonymousName (Sample.document "a.php" Sample.twoTokens) Sample.twoTokens
  = Js.Ok "#anonymous#0#0#0#6"%string.
Proof. reflexivity. Qed.

(** C10.  [createAnonymousName] returns a name exactly for the phrases that
    have a descendant token; for a phrase without one, [phraseRange] is none
    and reading its [start] raises a TypeError. *)
Theorem C10_anonymous_name_needs_a_token {TD : Type} `{!TextDocumentOps TD}
    (doc : ParsedDocument.t TD) (p : Node) :
  (ParsedDocument.createAnonymousName doc p = Js.Throw Js.TypeError <-> tokens p = [])
  /\ ((exists name, ParsedDocument.createAnonymousName doc p = Js.Ok name) <-> tokens p <> []).
Proof.
  unfold ParsedDocument.createAnonymousName.
  destruct (tokens p) as [| t l] eqn:E.
  - rewrite (phraseRange_no_tokens doc p E). split; split; try tauto; try congruence.
    intros [name H]. discriminate.
  - destruct (phraseRange_some_tokens doc p) as [r ->]; [congruence |].
    split; split; try discriminate; eauto.
Qed.

Example anonymous_name_of_empty_phrase :
  ParsedDocument.createAnonymousName (Sample.document "a.php" Sample.twoTokens)
    (PhraseNode (OtherPhrase 1) [PhraseNode (OtherPhrase 2) []])
  = Js.Throw Js.TypeError.
Proof. reflexivity. Qed.

(** ** Order of the edits of a batch *)

Section SortSpec.
Context {A : Type} (cmp : A -> A -> Z).
Hypothesis cmp_trans : forall a b c, cmp a b <= 0 -> cmp b c <= 0 -> cmp a c <= 0.
Hypothesis cmp_total : forall a b, cmp a b > 0 -> cmp b a <= 0.

Let before (a b : A) : Prop := cmp a b <= 0.

Lemma sortInsert_perm (x : A) (l : list A) : Permutation (Js.sortInsert cmp x l) (x :: l).
Proof.
  induction l as [| y l IH]; simpl; [reflexivity |].
  destruct (cmp x y <=? 0); [reflexivity |].
  rewrite IH. apply perm_swap.
Qed.

Lemma sort_perm (l : list A) : Permutation (Js.sort cmp l) l.
Proof.
  induction l as [| x l IH]; simpl; [reflexivity |].
  rewrite sortInsert_perm. constructor. exact IH.
Qed.

Lemma sortInsert_sorted (x : A) (l : list A) :
  StronglySorted before l -> StronglySorted before (Js.sortInsert cmp x l).
Proof.
  induction 1 as [| y l Hl IH Hy]; simpl.
  - constructor; constructor.
  - destruct (cmp x y <=? 0) eqn:E.
    + apply Z.leb_le in E. constructor; [constructor; assumption |].
      constructor; [exact E |].
      eapply Forall_impl; [exact Hy |]. intros z Hz. exact (cmp_trans _ _ _ E Hz).
    + apply Z.leb_gt in E. constructor; [exact IH |].
      eapply Permutation_Forall; [symmetry; apply sortInsert_perm |].
      constructor; [apply cmp_total; lia | exact Hy].
Qed.

Lemma sort_sorted (l : list A) : StronglySorted before (Js.sort cmp l).
Proof.
  induction l as [| x l IH]; simpl; [constructor | apply sortInsert_sorted; exact IH].
Qed.

Lemma sorted_lookup (l : list A) (i j : nat) (a b : A) :
  StronglySorted before l -> (i < j)%nat ->
  l !! i = Some a -> l !! j = Some b -> cmp a b <= 0.
Proof.
  intros Hs. revert i j. induction Hs as [| x l Hl IH Hx]; intros i j Hij Hi Hj.
  - discriminate.
  - destruct j as [| j]; [lia |]. destruct i as [| i]; simpl in *.
    + injection Hi as <-. rewrite Forall_forall in Hx. apply Hx.
      apply list_elem_of_lookup. eauto.
    + apply (IH i j); [lia | assumption | assumption].
Qed.

End SortSpec.

Lemma compareFn_sign (a b : TextDocumentContentChangeEvent) :
  ParsedDocument._textDocumentChangeCompareFn a b <= 0
  <-> line (end_ (range a)) > line (end_ (range b))
      \/ (line (end_ (range a)) = line (end_ (range b))
          /\ character (end_ (range a)) >= character (end_ (range b))).
Proof.
  unfold ParsedDocument._textDocumentChangeCompareFn.
  destruct (Z.gtb_spec (line (end_ (range a))) (line (end_ (range b))));
    [lia |].
  destruct (Z.ltb_spec (line (end_ (range a))) (line (end_ (range b)))); lia.
Qed.

Lemma compareFn_trans (a b c : TextDocumentContentChangeEvent) :
  ParsedDocument._textDocumentChangeCompareFn a b <= 0 ->
  ParsedDocument._textDocumentChangeCompareFn b c <= 0 ->
  ParsedDocument._textDocumentChangeCompareFn a c <= 0.
Proof. rewrite !compareFn_sign. lia. Qed.

Lemma compareFn_total (a b : TextDocumentContentChangeEvent) :
  ParsedDocument._textDocumentChangeCompareFn a b > 0 ->
  ParsedDocument._textDocumentChangeCompareFn b a <= 0.
Proof.
  intros H. apply compareFn_sign.
  assert (~ ParsedDocument._textDocumentChangeCompareFn a b <= 0) as Hn by lia.
  rewrite compareFn_sign in Hn. lia.
Qed.

Lemma editLog_fold (l : list TextDocumentContentChangeEvent) (d : EditLog.t) :
  EditLog.calls
    (fold_left (fun td change =>
                  applyEdit td (start (range change)) (end_ (range change)) (text change))
               l d)
  = EditLog.calls d ++ l.
Proof.
  revert d. induction l as [| c l IH]; intros d; simpl.
  - rewrite app_nil_r. reflexivity.
  - rewrite IH. simpl. rewrite <- app_assoc. simpl.
    destruct c as [[s e] txt]. reflexivity.
Qed.

(** On any text document, [applyChanges] applies the sorted batch from left
    to right, leaves the tree as it is and schedules a reparse. *)
Lemma applyChanges_spec {TD : Type} `{!TextDocumentOps TD}
    (doc : ParsedDocument.t TD) (batch : list TextDocumentContentChangeEvent) :
  ParsedDocument._textDocument (ParsedDocument.applyChanges doc batch)
  = fold_left (fun td change =>
                 applyEdit td (start (range change)) (end_ (range change)) (text change))
      (Js.sort ParsedDocument._textDocumentChangeCompareFn batch)
      (ParsedDocument._textDocument doc)
  /\ ParsedDocument._parseTree (ParsedDocument.applyChanges doc batch)
     = ParsedDocument._parseTree doc
  /\ ParsedDocument._debouncePending (ParsedDocument.applyChanges doc batch) = true.
Proof. repeat split. Qed.

Lemma appliedEdits_sort (batch : list TextDocumentContentChangeEvent) :
  appliedEdits batch = Js.sort ParsedDocument._textDocumentChangeCompareFn batch.
Proof. unfold appliedEdits, ParsedDocument.applyChanges. simpl. apply editLog_fold. Qed.

Lemma lookup_applied (l batch : list TextDocumentContentChangeEvent)
    (a : TextDocumentContentChangeEvent) :
  Permutation l batch -> In a batch -> exists i, l !! i = Some a.
Proof.
  intros Hperm Hin. apply list_elem_of_lookup, list_elem_of_In.
  eapply Permutation_in; [symmetry; exact Hperm | exact Hin].
Qed.

(** C4.  [applyChanges] hands the text document the edits of the batch, each
    once, and for every pair of edits of the batch of which one ends on a
    greater line, or on the same line at a greater character, that one is
    applied first: it has a place in the sequence of applied edits before
    the other, and no occurrence of it comes after an occurrence of the
    other.  On every text document the edits are applied in that sequence. *)
Theorem C4_edits_applied_in_descending_end_order
    (batch : list TextDocumentContentChangeEvent) :
  Permutation (appliedEdits batch) batch
  /\ (forall a b, In a batch -> In b batch -> endsAfter a b ->
        exists i j, (i < j)%nat
                    /\ appliedEdits batch !! i = Some a
                    /\ appliedEdits batch !! j = Some b)
  /\ (forall i j a b,
        appliedEdits batch !! i = Some a -> appliedEdits batch !! j = Some b ->
        endsAfter a b -> (i < j)%nat)
  /\ (forall (TD : Type) (ops : TextDocumentOps TD) (doc : ParsedDocument.t TD),
        ParsedDocument._textDocument (ParsedDocument.applyChanges doc batch)
        = fold_left (fun td change =>
                       applyEdit td (start (range change)) (end_ (range change)) (text change))
            (appliedEdits batch) (ParsedDocument._textDocument doc)).
Proof.
  assert (Hperm : Permutation (appliedEdits batch) batch)
    by (rewrite appliedEdits_sort; apply sort_perm).
  assert (Horder : forall i j a b,
             appliedEdits batch !! i = Some a -> appliedEdits batch !! j = Some b ->
             endsAfter a b -> (i < j)%nat).
  { rewrite appliedEdits_sort. intros i j a b Hi Hj Hab.
    pose proof (sort_sorted _ compareFn_trans compareFn_total batch) as Hs.
    destruct (Nat.lt_trichotomy i j) as [Hlt | [-> | Hgt]]; [exact Hlt | |].
    - rewrite Hi in Hj. injection Hj as ->. unfold endsAfter in Hab. lia.
    - pose proof (sorted_lookup _ _ _ _ _ _ Hs Hgt Hj Hi) as Hba.
      apply compareFn_sign in Hba. unfold endsAfter in Hab. lia. }
  split; [exact Hperm |]. split; [| split; [exact Horder |]].
  - intros a b Ha Hb Hab.
    destruct (lookup_applied _ _ a Hperm Ha) as [i Hi].
    destruct (lookup_applied _ _ b Hperm Hb) as [j Hj].
    exists i, j. split; [exact (Horder i j a b Hi Hj Hab) | split; assumption].
  - intros TD ops doc. rewrite appliedEdits_sort. reflexivity.
Qed.

Lemma C4_edits_applied_in_descending_end_order_witness :
  exists i j, (i < j)%nat
    /\ appliedEdits [Sample.edit 1 4 "x"; Sample.edit 0 7 "y"; Sample.edit 3 2 "z";
                     Sample.edit 1 9 "w"] !! i = Some (Sample.edit 1 9 "w")
    /\ appliedEdits [Sample.edit 1 4 "x"; Sample.edit 0 7 "y"; Sample.edit 3 2 "z";
                     Sample.edit 1 9 "w"] !! j = Some (Sample.edit 1 4 "x").
Proof.
  apply (proj1 (proj2 (C4_edits_applied_in_descending_end_order
           [Sample.edit 1 4 "x"; Sample.edit 0 7 "y"; Sample.edit 3 2 "z";
            Sample.edit 1 9 "w"]))).
  - right. right. right. left. reflexivity.
  - left. reflexivity.
  - right. simpl. lia.
Defined.

Example applied_edits_run :
  appliedEdits [Sample.edit 1 4 "x"; Sample.edit 0 7 "y"; Sample.edit 3 2 "z"; Sample.edit 1 9 "w"]
  = [Sample.edit 3 2 "z"; Sample.edit 1 9 "w"; Sample.edit 1 4 "x"; Sample.edit 0 7 "y"].
Proof. reflexivity. Qed.

(** * Properties of the completion provider *)

(** ** Presentation of member symbols *)

(** C8.  The scoped-access strategy turns a symbol into an item exactly when
    its kind is class constant, method or property, and the object-access
    strategy exactly when it is method or property; for every other kind the
    conversion throws the error "Invalid Argument". *)
Theorem C8_unexpected_kind_throws `{!SymbolKind.Enum} `{!SymbolModifier.Enum}
    (s : PhpSymbol.t) :
  ((exists item, ScopedAccessCompletion._toCompletionItem s = Js.Ok item)
   <-> PhpSymbol.kind s = SymbolKind.ClassConstant
       \/ PhpSymbol.kind s = SymbolKind.Method
       \/ PhpSymbol.kind s = SymbolKind.Property)
  /\ (ScopedAccessCompletion._toCompletionItem s = Js.Throw (Js.Error "Invalid Argument")
      <-> PhpSymbol.kind s <> SymbolKind.ClassConstant
          /\ PhpSymbol.kind s <> SymbolKind.Method
          /\ PhpSymbol.kind s <> SymbolKind.Property)
  /\ ((exists item, ObjectAccessCompletion._toCompletionItem s = Js.Ok item)
      <-> PhpSymbol.kind s = SymbolKind.Method \/ PhpSymbol.kind s = SymbolKind.Property)
  /\ (ObjectAccessCompletion._toCompletionItem s = Js.Throw (Js.Error "Invalid Argument")
      <-> PhpSymbol.kind s <> SymbolKind.Method /\ PhpSymbol.kind s <> SymbolKind.Property).
Proof.
  unfold ScopedAccessCompletion._toCompletionItem, ObjectAccessCompletion._toCompletionItem.
  destruct (Z.eqb_spec (PhpSymbol.kind s) SymbolKind.ClassConstant) as [Hc | Hc];
  destruct (Z.eqb_spec (PhpSymbol.kind s) SymbolKind.Method) as [Hm | Hm];
  destruct (Z.eqb_spec (PhpSymbol.kind s) SymbolKind.Property) as [Hp | Hp];
  repeat split;
  try (intros [item Hitem]; discriminate Hitem);
  try (intros; discriminate);
  try (intros; eexists; reflexivity);
  try tauto.
Qed.

(** ** Member visibility *)

Lemma truthy_bor_right (a b : Z) : Js.toInt32 b <> 0 -> Js.truthy (Js.bor a b) = true.
Proof.
  intros Hb. unfold Js.truthy, Js.bor.
  destruct (Z.eqb_spec (Z.lor (Js.toInt32 a) (Js.toInt32 b)) 0) as [E | E]; [| reflexivity].
  apply Z.lor_eq_0_iff in E. tauto.
Qed.

(** The base-tier predicate of instance access accepts no symbol: the
    negated operand is [(modifiers & Private) | Static], which is never 0. *)
Lemma objectAccess_base_predicate_rejects `{!Util} `{!SymbolKind.Enum} `{!SymbolModifier.Enum}
    (text : string) (s : PhpSymbol.t) :
  Js.toInt32 SymbolModifier.Static <> 0 ->
  ObjectAccessCompletion._createBaseMembersPredicate text s = false.
Proof.
  intros Hstatic. unfold ObjectAccessCompletion._createBaseMembersPredicate.
  rewrite (truthy_bor_right _ _ Hstatic). simpl.
  rewrite andb_false_r. reflexivity.
Qed.

(** C2, what the code does.  Inside class [B], whose base class [A] has the
    public method [g], the instance-member strategy rejects [g] for the query
    "g" on a candidate of type [A]: the base-tier predicate is false on it,
    though the predicate for unrelated classes accepts it, and the completion
    list comes back empty. *)
Theorem C2_base_tier_rejects_public_member :
  @ObjectAccessCompletion._createBaseMembersPredicate
     Sample.util Sample.kinds Sample.modifiers "g" Sample.g = false
  /\ @ObjectAccessCompletion._createMembersPredicate
       Sample.util Sample.kinds Sample.modifiers "g" Sample.g = true
  /\ @ObjectAccessCompletion.completions _ TreeTraverser.moving Sample.fields
       Sample.util Sample.kinds Sample.modifiers
       (Sample.store [] Sample.classesAB) 100
       (Sample.context (Sample.store [] Sample.classesAB) Sample.memberAccessSpine
          "g" "B" "A" ["A"%string])
     = Js.Ok {| lsp.items := []; lsp.isIncomplete := false |}.
Proof. repeat split; vm_compute; reflexivity. Qed.

(** With the enclosing class itself as the candidate type both methods are offered. *)
Example own_tier_offers_private_member :
  @ObjectAccessCompletion.completions _ TreeTraverser.moving Sample.fields
    Sample.util Sample.kinds Sample.modifiers
    (Sample.store [] Sample.classesAB) 100
    (Sample.context (Sample.store [] Sample.classesAB) Sample.memberAccessSpine
       "f" "A" EmptyString ["A"%string])
  = Js.Ok {| lsp.items := [toMethodCompletionItem Sample.f]; lsp.isIncomplete := false |}.
Proof. vm_compute. reflexivity. Qed.

(** ** Requests without a result *)

(** C6.  When the type the accessed expression resolves to has no atomic
    class name, the scoped-access and the object-access strategies return
    the empty list with the incompleteness flag false; nothing is thrown. *)
Theorem C6_no_type_gives_empty_result {T : Type} `{!TreeTraverserOps T} `{!PhraseFields}
    `{!Util} `{!SymbolKind.Enum} `{!SymbolModifier.Enum}
    (symbolStore : SymbolStore.t) (maxSuggestions : Z)
    (id : StrategyId) (context : Context.t T) (type : TypeString.t) :
  accessedType id context = Some type ->
  TypeString.atomicClassArray type = [] ->
  completions (strategyOf symbolStore maxSuggestions id) context
  = Js.Ok {| lsp.items := []; lsp.isIncomplete := false |}.
Proof.
  intros Hty Hnames.
  destruct id; simpl in Hty; try discriminate; simpl.
  - unfold ScopedAccessCompletion.completions.
    destruct (ancestor ScopedAccessCompletion._isScopedAccessExpr
                (Context.createTraverser context)) as [tr [expr |]];
      simpl in Hty; [| discriminate].
    injection Hty as Hty. rewrite Hty, Hnames. reflexivity.
  - unfold ObjectAccessCompletion.completions.
    destruct (ancestor ObjectAccessCompletion._isMemberAccessExpr
                (Context.createTraverser context)) as [tr [expr |]];
      simpl in Hty; [| discriminate].
    injection Hty as Hty. rewrite Hty, Hnames. reflexivity.
Qed.

Lemma C6_no_type_gives_empty_result_witness :
  completions
    (@strategyOf _ TreeTraverser.moving Sample.fields Sample.util Sample.kinds
       Sample.modifiers (Sample.store [] Sample.classesAB) 100 ScopedAccessId)
    (Sample.context (Sample.store [] Sample.classesAB) Sample.scopedAccessSpine
       "g" "B" "A" [])
  = Js.Ok {| lsp.items := []; lsp.isIncomplete := false |}.
Proof.
  apply (@C6_no_type_gives_empty_result _ TreeTraverser.moving Sample.fields Sample.util
           Sample.kinds Sample.modifiers (Sample.store [] Sample.classesAB) 100
           ScopedAccessId _ (TypeString.mk EmptyString [])).
  - reflexivity.
  - reflexivity.
Defined.

Example object_access_without_type :
  completions
    (@strategyOf _ TreeTraverser.moving Sample.fields Sample.util Sample.kinds
       Sample.modifiers (Sample.store [] Sample.classesAB) 100 ObjectAccessId)
    (Sample.context (Sample.store [] Sample.classesAB) Sample.memberAccessSpine
       "g" "B" "A" [])
  = Js.Ok noCompletionResponse.
Proof. reflexivity. Qed.

Lemma provideCompletions_not_found {TD T : Type} `{!ContextFactory TD T}
    (this : CompletionProvider.t TD T) (uri : string) (position : Position) :
  ParsedDocumentStore.find (CompletionProvider.documentStore this) uri = None ->
  CompletionProvider.provideCompletions this uri position = Js.Ok noCompletionResponse.
Proof.
  intros Hfind. unfold CompletionProvider.provideCompletions. rewrite Hfind. reflexivity.
Qed.

(** The early return is taken for the identifiers that are neither stored
    nor the name of a member of Object.prototype. *)
Lemma unknown_document_gives_empty_result {TD T : Type} `{!ContextFactory TD T}
    (this : CompletionProvider.t TD T) (uri : string) (position : Position) :
  ParsedDocumentStore._parsedDocumentmap (CompletionProvider.documentStore this) !! uri = None ->
  ObjectPrototype.has uri = false ->
  CompletionProvider.provideCompletions this uri position
  = Js.Ok {| lsp.items := []; lsp.isIncomplete := false |}.
Proof.
  intros Hown Hproto. apply provideCompletions_not_found.
  unfold ParsedDocumentStore.find. rewrite Hown, Hproto. reflexivity.
Qed.



Example unknown_document_run :
  @CompletionProvider.provideCompletions _ _
    (Sample.factory Sample.newFooSpine "Foo" "B" "A" [])
    (@CompletionProvider.new _ _ TreeTraverser.moving Sample.fields Sample.util
       Sample.kinds Sample.modifiers
       (Sample.store [] Sample.classesAB) ParsedDocumentStore.empty 100)
    "file:///closed.php" (mkPosition 0 5)
  = Js.Ok noCompletionResponse.
Proof. vm_compute. reflexivity. Qed.

(** ** Dispatch *)

Section Dispatch.
Context {T : Type} `{!TreeTraverserOps T} `{!PhraseFields} `{!Util}
        `{!SymbolKind.Enum} `{!SymbolModifier.Enum}.

(** The selected strategy is the first of the list that accepts the context. *)
Lemma selectStrategy_first (strategies : list (CompletionStrategy T)) (context : Context.t T) :
  match CompletionProvider.selectStrategy strategies context with
  | Some s =>
      exists i, strategies !! i = Some s /\ canSuggest s context = true
                /\ forall j s', (j < i)%nat -> strategies !! j = Some s' ->
                                canSuggest s' context = false
  | None => forall s, In s strategies -> canSuggest s context = false
  end.
Proof.
  induction strategies as [| s rest IH]; simpl.
  - intros s [].
  - destruct (canSuggest s context) eqn:E.
    + exists 0%nat. repeat split; [exact E |]. intros j s' Hj. lia.
    + destruct (CompletionProvider.selectStrategy rest context) as [s0 |].
      * destruct IH as (i & Hi & Hs0 & Hbefore). exists (S i). repeat split; try assumption.
        intros [| j] s' Hj Hlook; simpl in Hlook.
        -- injection Hlook as <-. exact E.
        -- apply (Hbefore j); [lia | exact Hlook].
      * intros s' [<- | Hin]; [exact E | apply IH; exact Hin].
Qed.

(** The two name strategies test the same first parent for different phrase
    types, so they never accept the same context. *)
Lemma name_strategies_exclusive (context : Context.t T) :
  ClassTypeDesignatorCompletion.canSuggest context = true ->
  NameCompletion.canSuggest context = false.
Proof.
  unfold ClassTypeDesignatorCompletion.canSuggest, NameCompletion.canSuggest.
  destruct (ParsedDocument.isToken (node (Context.createTraverser context))
              (Some [Backslash; Name])); [| discriminate].
  destruct (parent (Context.createTraverser context)) as [tr p].
  destruct p as [[t | ty cs] |]; simpl; try discriminate.
  unfold ParsedDocument.indexOfIn.
  destruct (decide (ty = NamespaceName)) as [-> | Hne].
  - intros _. reflexivity.
  - rewrite bool_decide_eq_false_2; [discriminate |].
    rewrite list_elem_of_singleton. exact Hne.
Qed.

Lemma designator_first (symbolStore : SymbolStore.t) (maxSuggestions : Z)
    (context : Context.t T) :
  ClassTypeDesignatorCompletion.canSuggest context = true ->
  CompletionProvider.selectStrategy
    [ClassTypeDesignatorCompletion.new maxSuggestions;
     ScopedAccessCompletion.new symbolStore maxSuggestions;
     ObjectAccessCompletion.new symbolStore maxSuggestions;
     SimpleVariableCompletion.new maxSuggestions;
     NameCompletion.new maxSuggestions] context
  = Some (ClassTypeDesignatorCompletion.new maxSuggestions).
Proof. intros Hcan. simpl. rewrite Hcan. reflexivity. Qed.

End Dispatch.

Lemma moving_designator_canSuggest (context : Context.t TreeTraverser.Spine) :
  TreeTraverser.onClassTypeDesignatorName (Context.createTraverser context) = true ->
  @ClassTypeDesignatorCompletion.canSuggest _ TreeTraverser.moving context = true.
Proof.
  unfold ClassTypeDesignatorCompletion.canSuggest, TreeTraverser.onClassTypeDesignatorName.
  destruct (Context.createTraverser context) as [| [t |] [| [| [] cs1] [| [| q cs2] [| [| [] cs3] rest]]]];
    try discriminate.
  simpl. unfold ParsedDocument.indexOfIn. intros Hshape.
  apply andb_prop in Hshape. destruct Hshape as [-> ->]. reflexivity.
Qed.

(** On a name token whose first parent is a namespace name the general-name
    strategy does not accept the context: its test reads the first parent,
    the namespace name, where its [completions] expects the qualified name
    one level further up. *)
Lemma name_under_namespace_name_not_accepted (context : Context.t TreeTraverser.Spine)
    (t : Node) (cs : list Node) (rest : TreeTraverser.Spine) :
  Context.createTraverser context = t :: PhraseNode NamespaceName cs :: rest ->
  @NameCompletion.canSuggest _ TreeTraverser.moving context = false.
Proof.
  intros Hspine. unfold NameCompletion.canSuggest. rewrite Hspine. simpl.
  destruct t as [tk |]; [| reflexivity].
  destruct (ParsedDocument.indexOfIn (Token.tokenType tk) [Backslash; Name]); reflexivity.
Qed.

Section DispatchOnSpines.
Context {TD : Type} `{!ContextFactory TD TreeTraverser.Spine} `{!PhraseFields} `{!Util}
        `{!SymbolKind.Enum} `{!SymbolModifier.Enum}.

#[local] Existing Instance TreeTraverser.moving.

(** X18.  For a stored document [provideCompletions] returns the completions
    of the first strategy of the list whose [canSuggest] accepts the
    context, and the empty result when no strategy accepts it; with the
    cursor on a name token of a class type designator that strategy is the
    class-type-designator one. *)
Theorem first_accepting_strategy_completes
    (symbolStore : SymbolStore.t) (documentStore : ParsedDocumentStore.t TD)
    (maxSuggestions : Z) (uri : string) (position : Position) (doc : ParsedDocument.t TD) :
  ParsedDocumentStore.find documentStore uri = Some (ParsedDocumentStore.Document doc) ->
  let this := CompletionProvider.new symbolStore documentStore maxSuggestions in
  let context := newContext symbolStore doc position in
  ((exists i s,
       CompletionProvider._strategies this !! i = Some s
       /\ canSuggest s context = true
       /\ (forall j s', (j < i)%nat -> CompletionProvider._strategies this !! j = Some s' ->
                        canSuggest s' context = false)
       /\ CompletionProvider.provideCompletions this uri position = completions s context)
   \/ ((forall s, In s (CompletionProvider._strategies this) -> canSuggest s context = false)
       /\ CompletionProvider.provideCompletions this uri position = Js.Ok noCompletionResponse))
  /\ (TreeTraverser.onClassTypeDesignatorName (Context.createTraverser context) = true ->
      CompletionProvider.provideCompletions this uri position
      = ClassTypeDesignatorCompletion.completions maxSuggestions context).
Proof.
  intros Hfind this context. split.
  - pose proof (selectStrategy_first (CompletionProvider._strategies this) context) as Hsel.
    unfold CompletionProvider.provideCompletions, CompletionProvider.suggest.
    change (CompletionProvider.documentStore this) with documentStore.
    change (CompletionProvider.symbolStore this) with symbolStore.
    rewrite Hfind. fold context.
    destruct (CompletionProvider.selectStrategy (CompletionProvider._strategies this) context)
      as [s |].
    + left. destruct Hsel as (i & Hi & Hs & Hbefore). exists i, s. auto.
    + right. auto.
  - intros Hshape. apply moving_designator_canSuggest in Hshape.
    unfold CompletionProvider.provideCompletions, CompletionProvider.suggest.
    change (CompletionProvider.documentStore this) with documentStore.
    change (CompletionProvider.symbolStore this) with symbolStore.
    rewrite Hfind. fold context.
    change (CompletionProvider._strategies this) with
      [ClassTypeDesignatorCompletion.new maxSuggestions;
       ScopedAccessCompletion.new symbolStore maxSuggestions;
       ObjectAccessCompletion.new symbolStore maxSuggestions;
       SimpleVariableCompletion.new maxSuggestions;
       NameCompletion.new maxSuggestions].
    rewrite (designator_first symbolStore maxSuggestions context Hshape). reflexivity.
Qed.

End DispatchOnSpines.

Lemma first_accepting_strategy_completes_witness :
  @CompletionProvider.provideCompletions _ _
    (Sample.factory Sample.newFooSpine "Foo" "B" "A" [])
    (@CompletionProvider.new _ _ TreeTraverser.moving Sample.fields Sample.util
       Sample.kinds Sample.modifiers Sample.index Sample.documents 100)
    "file:///a.php" (mkPosition 0 5)
  = Js.Ok
      {| lsp.items :=
           [{| lsp.label := "Foo"; lsp.kind := lsp.SymbolKind.Constructor;
               lsp.detail := Some "Foo"%string; lsp.documentation := None;
               lsp.insertText := Some "Foo($0)"%string;
               lsp.insertTextFormat := Some lsp.InsertTextFormat.Snippet |};
            {| lsp.label := "FooBar"; lsp.kind := lsp.SymbolKind.Constructor;
               lsp.detail := Some "FooBar"%string; lsp.documentation := None;
               lsp.insertText := Some "FooBar($0)"%string;
               lsp.insertTextFormat := Some lsp.InsertTextFormat.Snippet |}];
         lsp.isIncomplete := false |}.
Proof.
  refine (proj2 (@first_accepting_strategy_completes _
                   (Sample.factory Sample.newFooSpine "Foo" "B" "A" [])
                   Sample.fields Sample.util Sample.kinds Sample.modifiers
                   Sample.index Sample.documents 100
                   "file:///a.php" (mkPosition 0 5)
                   (Sample.document "file:///a.php" (PhraseNode StatementList [])) _) _).
  - vm_compute. reflexivity.
  - reflexivity.
Defined.

(** C3, at the name token of [new Foo].  The class-type-designator strategy
    accepts the context and [provideCompletions] returns its completions,
    the two classes offered as constructors.  The general-name strategy does
    not accept that context: its [canSuggest] tests the token's first parent,
    the namespace name, for the three qualified-name phrases, although its
    own [completions] reads the qualified name one level further up and
    would offer the same two classes, as classes. *)
Theorem C3_general_name_rejects_designator_name :
  let context := Sample.context Sample.index Sample.newFooSpine "Foo" "B" "A" [] in
  let constructorItem := fun name call : string =>
    {| lsp.label := name; lsp.kind := lsp.SymbolKind.Constructor;
       lsp.detail := Some name; lsp.documentation := None;
       lsp.insertText := Some call;
       lsp.insertTextFormat := Some lsp.InsertTextFormat.Snippet |} in
  let classItem := fun name call : string =>
    {| lsp.label := name; lsp.kind := lsp.SymbolKind.Class_;
       lsp.detail := Some name; lsp.documentation := None;
       lsp.insertText := Some call;
       lsp.insertTextFormat := Some lsp.InsertTextFormat.Snippet |} in
  TreeTraverser.onClassTypeDesignatorName Sample.newFooSpine = true
  /\ @ClassTypeDesignatorCompletion.canSuggest _ TreeTraverser.moving context = true
  /\ @CompletionProvider.provideCompletions _ _
       (Sample.factory Sample.newFooSpine "Foo" "B" "A" [])
       (@CompletionProvider.new _ _ TreeTraverser.moving Sample.fields Sample.util
          Sample.kinds Sample.modifiers Sample.index Sample.documents 100)
       "file:///a.php" (mkPosition 0 5)
     = Js.Ok {| lsp.items := [constructorItem "Foo" "Foo($0)";
                              constructorItem "FooBar" "FooBar($0)"];
                lsp.isIncomplete := false |}
  /\ @NameCompletion.canSuggest _ TreeTraverser.moving context = false
  /\ @NameCompletion.completions _ TreeTraverser.moving Sample.util
       Sample.kinds Sample.modifiers 100 context
     = Js.Ok {| lsp.items := [classItem "Foo" "Foo($0)"; classItem "FooBar" "FooBar($0)"];
                lsp.isIncomplete := false |}.
Proof. repeat split; vm_compute; reflexivity. Qed.

(** Under the reading in which [parent] never moves the cursor, neither of
    the two name strategies accepts that context. *)
Example depth_one_reading :
  @ClassTypeDesignatorCompletion.canSuggest _ TreeTraverser.depthOne
    (Sample.context (Sample.store [] Sample.classesAB) Sample.newFooSpine "Foo" "B" "A" [])
  = false
  /\ @NameCompletion.canSuggest _ TreeTraverser.depthOne
       (Sample.context (Sample.store [] Sample.classesAB) Sample.newFooSpine "Foo" "B" "A" [])
     = false.
Proof. split; reflexivity. Qed.

(** ** Truncation *)

Lemma mapM_length {A B} (f : A -> Js.Result B) (xs : list A) (ys : list B) :
  Js.mapM f xs = Js.Ok ys -> List.length ys = List.length xs.
Proof.
  revert ys. induction xs as [| x xs IH]; intros ys Hm; simpl in Hm.
  - injection Hm as <-. reflexivity.
  - destruct (f x) as [y | e]; simpl in Hm; [| discriminate].
    destruct (Js.mapM f xs) as [ys' | e]; simpl in Hm; [| discriminate].
    injection Hm as <-. simpl. rewrite (IH ys' eq_refl). reflexivity.
Qed.

Lemma take_len {A} (limit : Z) (xs : list A) :
  Js.len (Js.take limit xs) = Z.max 0 (Z.min limit (Js.len xs)).
Proof. unfold Js.len, Js.take. rewrite length_firstn. lia. Qed.

Lemma pushItems_len `{!Util} (toItem : PhpSymbol.t -> Js.Result lsp.CompletionItem)
    (limit : Z) (symbols : list PhpSymbol.t) (items result : list lsp.CompletionItem) :
  pushItems toItem limit symbols items = Js.Ok result ->
  Js.len result = Js.len items + Z.max 0 (Z.min limit (Js.len symbols)).
Proof.
  unfold pushItems, mbind, Result_bind, Js.bind. intros Hp.
  destruct (Js.mapM toItem (Js.take limit symbols)) as [more |] eqn:E; [| discriminate].
  injection Hp as <-. apply mapM_length in E.
  rewrite <- take_len. unfold Js.len in *. rewrite length_app, E. lia.
Qed.

Lemma keywordCompletionItems_len `{!Util} (keywords : list string) (text : string) :
  Js.len (keywordCompletionItems keywords text)
  = Js.len (List.filter (fuzzyStringMatch text) keywords).
Proof.
  unfold Js.len. f_equal.
  induction keywords as [| kw rest IH]; simpl; [reflexivity |].
  destruct (fuzzyStringMatch text kw); simpl; rewrite IH; reflexivity.
Qed.

Lemma phraseTypeOf_ok (n : option Node) (ty : option PhraseType) :
  phraseTypeOf n = Js.Ok ty -> ty = nodePhraseType n.
Proof. destruct n as [[t | p cs] |]; simpl; intros Hn; congruence. Qed.

(** The arithmetic of the cap: [k] items are already collected, [m] symbols
    match, and the loop pushes the first [min m (max - k)] of them. *)
Lemma cap_arith (k m maxSuggestions total : Z) (flag : bool) :
  0 <= k -> 0 <= m ->
  total = k + Z.max 0 (Z.min (Z.min m (maxSuggestions - k)) m) ->
  flag = (m >? maxSuggestions - k) ->
  (flag = true <-> k + m > maxSuggestions)
  /\ total = k + Z.max 0 (Z.min m (maxSuggestions - k))
  /\ (k <= maxSuggestions ->
      total <= maxSuggestions
      /\ (k + m > maxSuggestions -> total = maxSuggestions)
      /\ (k + m <= maxSuggestions -> total = k + m)).
Proof.
  intros Hk Hm -> ->.
  destruct (Z.gtb_spec m (maxSuggestions - k));
    repeat split; intros; try reflexivity; try discriminate; lia.
Qed.

Lemma Ok_inj {A} (a b : A) : Js.Ok a = Js.Ok b -> a = b.
Proof. intros Heq. injection Heq as ->. reflexivity. Qed.

Lemma len_nonneg {A} (l : list A) : 0 <= Js.len l.
Proof. unfold Js.len. lia. Qed.

Lemma len_app {A} (l1 l2 : list A) : Js.len (l1 ++ l2) = Js.len l1 + Js.len l2.
Proof. unfold Js.len. rewrite length_app. lia. Qed.

Section Truncation.
Context {T : Type} `{!TreeTraverserOps T} `{!PhraseFields} `{!Util}
        `{!SymbolKind.Enum} `{!SymbolModifier.Enum}.

Ltac run_result Hrun :=
  unfold mbind, mret, Result_bind, Result_ret, Js.bind in Hrun.

Lemma capped_after_push (toItem : PhpSymbol.t -> Js.Result lsp.CompletionItem)
    (maxSuggestions : Z) (keywords : list string) (symbols : list PhpSymbol.t)
    (items result : list lsp.CompletionItem) :
  Js.len items = Js.len keywords ->
  pushItems toItem (Z.min (Js.len symbols) (maxSuggestions - Js.len items)) symbols items
  = Js.Ok result ->
  capped maxSuggestions keywords symbols
    {| lsp.items := result;
       lsp.isIncomplete := Js.len symbols >? maxSuggestions - Js.len items |}.
Proof.
  intros Hk Hpush. apply pushItems_len in Hpush. unfold capped. simpl.
  apply (cap_arith (Js.len keywords) (Js.len symbols) maxSuggestions);
    [apply len_nonneg | apply len_nonneg | rewrite Hpush, Hk; reflexivity
    | rewrite Hk; reflexivity].
Qed.

(** Leaves the goal that the items collected before the symbols are as many
    as the matching keywords. *)
Ltac finish_capped Hrun :=
  match type of Hrun with
  | match pushItems ?f ?l ?s ?i with _ => _ end = _ =>
      match goal with
      | |- capped _ ?kw _ _ =>
          let Hk := fresh "Hk" in
          let Hpush := fresh "Hpush" in
          let items := fresh "items" in
          assert (Hk : Js.len i = Js.len kw);
          [| destruct (pushItems f l s i) as [items |] eqn:Hpush; [| discriminate];
             apply Ok_inj in Hrun; subst;
             exact (capped_after_push f _ kw s i items Hk Hpush)]
      end
  end.

Lemma designator_capped (symbolStore : SymbolStore.t) (maxSuggestions : Z)
    (context : Context.t T) (result : lsp.CompletionList) :
  ClassTypeDesignatorCompletion.completions maxSuggestions context = Js.Ok result ->
  match candidates symbolStore ClassTypeDesignatorId context with
  | None => result = noCompletionResponse
  | Some (keywords, symbols) => capped maxSuggestions keywords symbols result
  end.
Proof.
  unfold ClassTypeDesignatorCompletion.completions, candidates, nameQuery.
  destruct (parent (Context.createTraverser context)) as [tr1 nsNameNode].
  destruct (parent tr1) as [tr2 qNameNode].
  destruct (Js.nonEmpty _); cbn [negb]; intros Hrun; [| run_result Hrun; congruence].
  run_result Hrun.
  destruct (phraseTypeOf qNameNode) as [qType |] eqn:Hq; [| discriminate].
  apply phraseTypeOf_ok in Hq. subst qType.
  finish_capped Hrun.
  destruct (phraseTypeIs (nodePhraseType qNameNode) QualifiedName);
    [rewrite app_nil_l; apply keywordCompletionItems_len | reflexivity].
Qed.

Lemma name_capped (symbolStore : SymbolStore.t) (maxSuggestions : Z)
    (context : Context.t T) (result : lsp.CompletionList) :
  NameCompletion.completions maxSuggestions context = Js.Ok result ->
  match candidates symbolStore NameId context with
  | None => result = noCompletionResponse
  | Some (keywords, symbols) => capped maxSuggestions keywords symbols result
  end.
Proof.
  unfold NameCompletion.completions, candidates, nameQuery.
  destruct (parent (Context.createTraverser context)) as [tr1 nsNameNode].
  destruct (parent tr1) as [tr2 qNameNode].
  destruct (parent tr2) as [tr3 qNameParent].
  destruct (Js.nonEmpty _); cbn [negb]; intros Hrun; [| run_result Hrun; congruence].
  run_result Hrun.
  destruct (phraseTypeOf qNameNode) as [qType |] eqn:Hq; [| discriminate].
  apply phraseTypeOf_ok in Hq. subst qType.
  destruct (phraseTypeIs (nodePhraseType qNameNode) QualifiedName).
  - destruct (phraseTypeOf qNameParent) as [parentType |] eqn:Hp; [| discriminate].
    apply phraseTypeOf_ok in Hp. subst parentType.
    destruct (phraseTypeIs (nodePhraseType qNameParent) StatementList);
      finish_capped Hrun;
      rewrite ?app_nil_l, ?app_nil_r, ?len_app, ?keywordCompletionItems_len; reflexivity.
  - finish_capped Hrun. reflexivity.
Qed.

Lemma simpleVariable_capped (symbolStore : SymbolStore.t) (maxSuggestions : Z)
    (context : Context.t T) (result : lsp.CompletionList) :
  SimpleVariableCompletion.completions maxSuggestions context = Js.Ok result ->
  match candidates symbolStore SimpleVariableId context with
  | None => result = noCompletionResponse
  | Some (keywords, symbols) => capped maxSuggestions keywords symbols result
  end.
Proof.
  unfold SimpleVariableCompletion.completions, candidates.
  destruct (Js.nonEmpty _); cbn [negb]; intros Hrun; [| run_result Hrun; congruence].
  destruct (Context.scopeSymbol context) as [scope |]; [| discriminate].
  run_result Hrun.
  match type of Hrun with
  | context [pushItems ?f (Z.min ?m ?x) ?s ?i] =>
      replace x with (x - Js.len i) in Hrun by (unfold Js.len; simpl; lia)
  end.
  finish_capped Hrun. reflexivity.
Qed.

Lemma scopedAccess_capped (symbolStore : SymbolStore.t) (maxSuggestions : Z)
    (context : Context.t T) (result : lsp.CompletionList) :
  ScopedAccessCompletion.completions symbolStore maxSuggestions context = Js.Ok result ->
  match candidates symbolStore ScopedAccessId context with
  | None => result = noCompletionResponse
  | Some (keywords, symbols) => capped maxSuggestions keywords symbols result
  end.
Proof.
  unfold ScopedAccessCompletion.completions, candidates.
  destruct (ancestor _ (Context.createTraverser context)) as [tr [expr |]];
    cbn [snd]; [| discriminate].
  destruct (TypeString.atomicClassArray _) as [| typeName typeNames] eqn:Hnames.
  - change (Js.len (@nil string) =? 0) with true. cbv iota.
    intros Hrun. apply Ok_inj in Hrun. congruence.
  - replace (Js.len (typeName :: typeNames) =? 0) with false
      by (symmetry; apply Z.eqb_neq; unfold Js.len; simpl; lia).
    intros Hrun. run_result Hrun.
    match type of Hrun with
    | context [pushItems ?f (Z.min ?m ?x) ?s ?i] =>
        replace x with (x - Js.len i) in Hrun by (unfold Js.len; simpl; lia)
    end.
    finish_capped Hrun. reflexivity.
Qed.

Lemma objectAccess_capped (symbolStore : SymbolStore.t) (maxSuggestions : Z)
    (context : Context.t T) (result : lsp.CompletionList) :
  ObjectAccessCompletion.completions symbolStore maxSuggestions context = Js.Ok result ->
  match candidates symbolStore ObjectAccessId context with
  | None => result = noCompletionResponse
  | Some (keywords, symbols) => capped maxSuggestions keywords symbols result
  end.
Proof.
  unfold ObjectAccessCompletion.completions, candidates.
  destruct (ancestor _ (Context.createTraverser context)) as [tr [expr |]];
    cbn [snd]; [| discriminate].
  destruct (TypeString.atomicClassArray _) as [| typeName typeNames] eqn:Hnames.
  - change (Js.len (@nil string) =? 0) with true. cbv iota.
    intros Hrun. apply Ok_inj in Hrun. congruence.
  - replace (Js.len (typeName :: typeNames) =? 0) with false
      by (symmetry; apply Z.eqb_neq; unfold Js.len; simpl; lia).
    intros Hrun. run_result Hrun.
    match type of Hrun with
    | context [pushItems ?f (Z.min ?m ?x) ?s ?i] =>
        replace x with (x - Js.len i) in Hrun by (unfold Js.len; simpl; lia)
    end.
    finish_capped Hrun. reflexivity.
Qed.

(** X19.  Whatever the strategy, a request that returns a list returns the
    empty one when it has no query text (or, for member access, no type);
    otherwise the incompleteness flag is set exactly when the matching
    keywords and symbols together outnumber the maximum, and the list holds
    every matching keyword and then as many symbols as the maximum leaves
    room for, none when the keywords alone reach it.  So as long as the
    matching keywords do not outnumber the maximum the list holds at most
    the maximum: exactly the maximum when the matches outnumber it, and
    every match when they do not. *)
Theorem completions_truncate (symbolStore : SymbolStore.t) (maxSuggestions : Z)
    (id : StrategyId) (context : Context.t T) (result : lsp.CompletionList) :
  completions (strategyOf symbolStore maxSuggestions id) context = Js.Ok result ->
  match candidates symbolStore id context with
  | None => result = {| lsp.items := []; lsp.isIncomplete := false |}
  | Some (keywords, symbols) =>
      let matched := Js.len keywords + Js.len symbols in
      (lsp.isIncomplete result = true <-> matched > maxSuggestions)
      /\ Js.len (lsp.items result)
         = Js.len keywords
           + Z.max 0 (Z.min (Js.len symbols) (maxSuggestions - Js.len keywords))
      /\ (Js.len keywords <= maxSuggestions ->
          Js.len (lsp.items result) <= maxSuggestions
          /\ (matched > maxSuggestions -> Js.len (lsp.items result) = maxSuggestions)
          /\ (matched <= maxSuggestions -> Js.len (lsp.items result) = matched))
  end.
Proof.
  destruct id; intros Hrun.
  - exact (designator_capped symbolStore maxSuggestions context result Hrun).
  - exact (scopedAccess_capped symbolStore maxSuggestions context result Hrun).
  - exact (objectAccess_capped symbolStore maxSuggestions context result Hrun).
  - exact (simpleVariable_capped symbolStore maxSuggestions context result Hrun).
  - exact (name_capped symbolStore maxSuggestions context result Hrun).
Qed.

End Truncation.

Lemma completions_truncate_witness :
  capped 1 [] [Sample.symbol 1 "Foo" 0; Sample.symbol 1 "FooBar" 0]
    {| lsp.items :=
         [{| lsp.label := "Foo"; lsp.kind := lsp.SymbolKind.Constructor;
             lsp.detail := Some "Foo"%string; lsp.documentation := None;
             lsp.insertText := Some "Foo($0)"%string;
             lsp.insertTextFormat := Some lsp.InsertTextFormat.Snippet |}];
       lsp.isIncomplete := true |}.
Proof.
  exact (@completions_truncate _ TreeTraverser.moving Sample.fields Sample.util Sample.kinds
           Sample.modifiers Sample.index 1 ClassTypeDesignatorId
           (Sample.context Sample.index Sample.newFooSpine "Foo" "B" "A" []) _ eq_refl).
Defined.

(** C1, where the keywords alone outnumber the maximum.  The keyword items
    are pushed before [limit] is computed from [maxSuggestions - items.length]
    and nothing removes them: with at most two suggestions and the query "a"
    on the name of [new a], the three keywords of the class-type-designator
    strategy all match and all three are returned; with a maximum of zero
    and the query "static" the keyword [static] is returned.  The symbols of
    the same strategy are cut at the maximum: with at most one suggestion
    and the query "Foo" one of the two matching classes is returned. *)
Theorem C1_keywords_escape_the_cap :
  @CompletionProvider.provideCompletions _ _
    (Sample.factory Sample.newFooSpine "a" "B" "A" [])
    (@CompletionProvider.new _ _ TreeTraverser.moving Sample.fields Sample.util
       Sample.kinds Sample.modifiers (Sample.store [] Sample.classesAB) Sample.documents 2)
    "file:///a.php" (mkPosition 0 5)
  = Js.Ok {| lsp.items := [Sample.keywordItem "class"; Sample.keywordItem "static";
                           Sample.keywordItem "namespace"];
             lsp.isIncomplete := true |}
  /\ ~ (Js.len [Sample.keywordItem "class"; Sample.keywordItem "static";
                Sample.keywordItem "namespace"] <= 2)
  /\ @CompletionProvider.provideCompletions _ _
       (Sample.factory Sample.newFooSpine "static" "B" "A" [])
       (@CompletionProvider.new _ _ TreeTraverser.moving Sample.fields Sample.util
          Sample.kinds Sample.modifiers (Sample.store [] Sample.classesAB) Sample.documents 0)
       "file:///a.php" (mkPosition 0 5)
     = Js.Ok {| lsp.items := [Sample.keywordItem "static"]; lsp.isIncomplete := true |}
  /\ ~ (Js.len [Sample.keywordItem "static"] <= 0)
  /\ @CompletionProvider.provideCompletions _ _
       (Sample.factory Sample.newFooSpine "Foo" "B" "A" [])
       (@CompletionProvider.new _ _ TreeTraverser.moving Sample.fields Sample.util
          Sample.kinds Sample.modifiers Sample.index Sample.documents 1)
       "file:///a.php" (mkPosition 0 5)
     = Js.Ok {| lsp.items :=
                  [{| lsp.label := "Foo"; lsp.kind := lsp.SymbolKind.Constructor;
                      lsp.detail := Some "Foo"%string; lsp.documentation := None;
                      lsp.insertText := Some "Foo($0)"%string;
                      lsp.insertTextFormat := Some lsp.InsertTextFormat.Snippet |}];
                lsp.isIncomplete := true |}.
Proof.
  repeat split; try (vm_compute; reflexivity); vm_compute; intros Hle; apply Hle; reflexivity.
Qed.

(** * Further properties of the parsed document *)

(** ** Concatenation of strings *)

Lemma append_cons (c : ascii) (s t : string) : String c s +:+ t = String c (s +:+ t).
Proof. reflexivity. Qed.

Lemma append_empty_r (s : string) : s +:+ EmptyString = s.
Proof. induction s as [| c s IH]; [reflexivity |]. rewrite append_cons, IH. reflexivity. Qed.

Lemma append_assoc (s t u : string) : (s +:+ t) +:+ u = s +:+ (t +:+ u).
Proof. induction s as [| c s IH]; [reflexivity |]. rewrite !append_cons, IH. reflexivity. Qed.

Lemma append_length (s t : string) :
  String.length (s +:+ t) = (String.length s + String.length t)%nat.
Proof. induction s as [| c s IH]; [reflexivity |]. rewrite append_cons. simpl. rewrite IH. reflexivity. Qed.

(** ** The word before the cursor *)

Ltac class_bounds Hc :=
  unfold WordRegex.first, WordRegex.rest, WordRegex.letter, WordRegex.between in Hc;
  rewrite ?orb_true_iff, ?andb_true_iff, ?N.eqb_eq, ?N.leb_le in Hc.

Lemma first_latin1 (c : N) : WordRegex.first c = true -> (c <= 255)%N.
Proof. intros Hc. class_bounds Hc. lia. Qed.

Lemma rest_latin1 (c : N) : WordRegex.rest c = true -> (c <= 255)%N.
Proof. intros Hc. class_bounds Hc. lia. Qed.

Lemma first_rest (c : N) : WordRegex.first c = true -> c <> 36%N -> WordRegex.rest c = true.
Proof.
  intros Hc Hne. class_bounds Hc.
  unfold WordRegex.rest, WordRegex.letter, WordRegex.between.
  rewrite ?orb_true_iff, ?andb_true_iff, ?N.eqb_eq, ?N.leb_le. lia.
Qed.

Lemma exec_some (s m : CodeUnits) :
  WordRegex.exec s = Some m ->
  WordRegex.matchesHere m = true
  /\ (exists pre, s = pre ++ m)
  /\ forall p q, s = p ++ q -> (List.length q > List.length m)%nat ->
                 WordRegex.matchesHere q = false.
Proof.
  induction s as [| c s IH]; simpl.
  - discriminate.
  - destruct (WordRegex.first c && forallb WordRegex.rest s) eqn:E.
    + intros Hm. injection Hm as <-. split; [exact E |]. split; [exists []; reflexivity |].
      intros p q Hs Hlen. apply (f_equal (@List.length N)) in Hs.
      rewrite length_app in Hs. simpl in Hs, Hlen. lia.
    + intros Hm. destruct (IH Hm) as (Hshape & [pre Hpre] & Hmax).
      split; [exact Hshape |]. split; [exists (c :: pre); rewrite Hpre; reflexivity |].
      intros [| c' p] q Hs Hlen.
      * simpl in Hs. subst q. exact E.
      * simpl in Hs. injection Hs as _ Hs. exact (Hmax p q Hs Hlen).
Qed.

Lemma exec_none (s : CodeUnits) :
  WordRegex.exec s = None ->
  forall p q, s = p ++ q -> WordRegex.matchesHere q = false.
Proof.
  induction s as [| c s IH]; simpl.
  - intros _ [| c' p] q Hs; [| discriminate].
    simpl in Hs. subst q. reflexivity.
  - destruct (WordRegex.first c && forallb WordRegex.rest s) eqn:E; [discriminate |].
    intros Hn [| c' p] q Hs.
    + simpl in Hs. subst q. exact E.
    + simpl in Hs. injection Hs as _ Hs. exact (IH Hn p q Hs).
Qed.

(** X1.  [wordAtOffset] returns the longest suffix of the line text up to
    the offset that is a word (a first code unit of the first class followed
    by code units of the second class only), and the empty string when no
    suffix is one.  The classes hold no code unit above 255. *)
Theorem wordAtOffset_longest_word_suffix {TD : Type} `{!TextDocumentText TD}
    (doc : ParsedDocument.t TD) (offset : Z) :
  let lineText := lineSubstring (ParsedDocument._textDocument doc) offset in
  let word := wordAtOffset doc offset in
  (exists pre, lineText = pre ++ word)
  /\ (word = [] \/ WordRegex.matchesHere word = true)
  /\ (forall p q, lineText = p ++ q ->
        (List.length q > List.length word)%nat ->
        WordRegex.matchesHere q = false)
  /\ (forall c, In c word ->
        (c <= 255)%N
        /\ (WordRegex.rest c = true \/ (c = 36%N /\ head word = Some c))).
Proof.
  unfold wordAtOffset. cbv zeta.
  destruct (WordRegex.exec (lineSubstring (ParsedDocument._textDocument doc) offset))
    as [m |] eqn:E.
  - destruct (exec_some _ _ E) as (Hshape & Hpre & Hmax).
    split; [exact Hpre |]. split; [right; exact Hshape |]. split; [exact Hmax |].
    destruct m as [| c0 m]; [discriminate |]. simpl in Hshape.
    apply andb_prop in Hshape. destruct Hshape as [Hfirst Hrest].
    rewrite forallb_forall in Hrest.
    intros c [<- | Hin].
    + split; [exact (first_latin1 _ Hfirst) |].
      destruct (N.eq_dec c0 36%N) as [-> | Hne]; [right; split; reflexivity |].
      left. exact (first_rest _ Hfirst Hne).
    + split; [exact (rest_latin1 _ (Hrest c Hin)) | left; exact (Hrest c Hin)].
  - split; [| split; [| split]].
    + eexists. symmetry. apply app_nil_r.
    + left. reflexivity.
    + intros p q Hs _. exact (exec_none _ E p q Hs).
    + intros c [].
Qed.

Example word_run :
  WordRegex.exec (codeUnitsOf "  $foo = new \Bar\Ba") = Some (codeUnitsOf "Bar\Ba")
  /\ WordRegex.exec (codeUnitsOf "$a$b") = Some (codeUnitsOf "$b")
  /\ WordRegex.exec (codeUnitsOf "foo(") = None.
Proof. repeat split. Qed.

(** Code units above 255 belong to no class: after [$] followed by three
    Cyrillic letters no suffix is a word, while a Latin-1 letter such as
    unit 233 is a word character. *)
Example word_beyond_latin1 :
  WordRegex.exec [36; 1080; 1084; 1103]%N = None
  /\ WordRegex.exec [36; 1080; 97; 98]%N = Some [97; 98]%N
  /\ WordRegex.exec [32; 36; 233; 116; 233]%N = Some [36; 233; 116; 233]%N.
Proof. repeat split. Qed.

(** ** Tokens of a node *)

(** X2.  [firstToken] is the first and [lastToken] the last element of the
    sequence of descendant tokens taken left to right: children without a
    token are skipped at any depth.  [phraseRange] runs from the position of
    the first token's offset to the position of the last token's end. *)
Theorem first_and_last_of_token_sequence {TD : Type} `{!TextDocumentOps TD}
    (doc : ParsedDocument.t TD) (n : Node) :
  ParsedDocument.firstToken n = head (tokens n)
  /\ ParsedDocument.lastToken n = last (tokens n)
  /\ ParsedDocument.phraseRange doc n
     = match head (tokens n), last (tokens n) with
       | Some tFirst, Some tLast =>
           Some {| start := positionAtOffset (ParsedDocument._textDocument doc)
                              (Token.offset tFirst);
                   end_ := positionAtOffset (ParsedDocument._textDocument doc)
                             (tokenEnd tLast) |}
       | _, _ => None
       end.
Proof.
  split; [apply firstToken_head |]. split; [apply lastToken_last |].
  unfold ParsedDocument.phraseRange.
  rewrite firstToken_head, lastToken_last.
  destruct (head (tokens n)), (last (tokens n)); reflexivity.
Qed.

Lemma laidOut_after (t : Token.t) (l : list Token.t) :
  laidOut (t :: l) = true -> forall b, In b l -> tokenEnd t <= Token.offset b.
Proof.
  revert t. induction l as [| t' l IH]; intros t Hl b Hb; [destruct Hb |].
  change (laidOut (t :: t' :: l))
    with ((0 <=? Token.length t) && ((tokenEnd t <=? Token.offset t') && laidOut (t' :: l))) in Hl.
  apply andb_prop in Hl. destruct Hl as [_ Hl].
  apply andb_prop in Hl. destruct Hl as [Hnext Hrest]. apply Z.leb_le in Hnext.
  destruct Hb as [<- | Hb]; [exact Hnext |].
  specialize (IH t' Hrest b Hb).
  assert (0 <= Token.length t') by
    (simpl in Hrest; apply andb_prop in Hrest; destruct Hrest as [Hz _]; apply Z.leb_le; exact Hz).
  unfold tokenEnd in *. lia.
Qed.

Lemma laidOut_lookup (l : list Token.t) (i j : nat) (a b : Token.t) :
  laidOut l = true -> (i < j)%nat -> l !! i = Some a -> l !! j = Some b ->
  tokenEnd a <= Token.offset b.
Proof.
  revert i j. induction l as [| t l IH]; intros i j Hl Hij Hi Hj; [discriminate |].
  destruct j as [| j]; [lia |]. destruct i as [| i]; simpl in Hi, Hj.
  - injection Hi as <-. apply (laidOut_after _ _ Hl).
    apply list_elem_of_In, list_elem_of_lookup. eauto.
  - apply (IH i j); [| lia | exact Hi | exact Hj].
    destruct l as [| t' l]; [reflexivity |].
    change (laidOut (t :: t' :: l))
      with ((0 <=? Token.length t) && ((tokenEnd t <=? Token.offset t') && laidOut (t' :: l))) in Hl.
    apply andb_prop in Hl. destruct Hl as [_ Hl]. apply andb_prop in Hl. tauto.
Qed.

Lemma isOffsetInToken_bounds (offset : Z) (t : Token.t) :
  isOffsetInToken offset (Some (TokenNode t)) = true
  <-> Token.offset t <= offset < tokenEnd t.
Proof.
  unfold isOffsetInToken, tokenEnd. simpl.
  rewrite andb_true_iff, Z.leb_le, Z.geb_le. lia.
Qed.

(** X3.  When the tokens of a node are laid out without overlap, an offset
    lies in at most one of them. *)
Theorem offset_in_at_most_one_token (n : Node) (offset : Z) (i j : nat) (a b : Token.t) :
  laidOut (tokens n) = true ->
  tokens n !! i = Some a ->
  tokens n !! j = Some b ->
  isOffsetInToken offset (Some (TokenNode a)) = true ->
  isOffsetInToken offset (Some (TokenNode b)) = true ->
  i = j.
Proof.
  intros Hl Hi Hj Ha Hb. apply isOffsetInToken_bounds in Ha, Hb.
  destruct (Nat.lt_trichotomy i j) as [Hlt | [Heq | Hgt]]; [| exact Heq |].
  - pose proof (laidOut_lookup _ _ _ _ _ Hl Hlt Hi Hj). lia.
  - pose proof (laidOut_lookup _ _ _ _ _ Hl Hgt Hj Hi). lia.
Qed.

Lemma offset_in_at_most_one_token_witness : 1%nat = 1%nat.
Proof.
  exact (offset_in_at_most_one_token Sample.twoTokens 5 1 1
           (Token.mk (OtherToken 0) 4 2) (Token.mk (OtherToken 0) 4 2)
           eq_refl eq_refl eq_refl eq_refl eq_refl).
Defined.

(** A token of length zero contains no offset. *)
Example empty_token_contains_nothing (offset start : Z) (ty : TokenType) :
  isOffsetInToken offset (Some (TokenNode (Token.mk ty start 0))) = false.
Proof.
  destruct (isOffsetInToken offset _) eqn:E; [| reflexivity].
  apply isOffsetInToken_bounds in E. unfold tokenEnd in E. simpl in E. lia.
Qed.

(** ** Batches of edits *)

Lemma sorted_permutation_unique {A : Type} (before : A -> A -> Prop) (l1 l2 : list A) :
  StronglySorted before l1 -> StronglySorted before l2 -> Permutation l1 l2 ->
  (forall a b, In a l1 -> In b l1 -> before a b -> before b a -> a = b) ->
  l1 = l2.
Proof.
  intros Hs1. revert l2. induction Hs1 as [| x l1 Hs1 IH Hx]; intros l2 Hs2 Hperm Hanti.
  - apply Permutation_nil in Hperm. congruence.
  - destruct Hs2 as [| y l2 Hs2 Hy].
    + symmetry in Hperm. apply Permutation_nil in Hperm. discriminate.
    + rewrite Forall_forall in Hx, Hy.
      assert (Hxy : x = y).
      { assert (Hyin : In y (x :: l1)) by
          (eapply Permutation_in; [symmetry; exact Hperm | left; reflexivity]).
        assert (Hxin : In x (y :: l2)) by
          (eapply Permutation_in; [exact Hperm | left; reflexivity]).
        destruct Hyin as [Heq | Hyin]; [congruence |].
        destruct Hxin as [Heq | Hxin]; [congruence |].
        apply Hanti; [left; reflexivity | right; exact Hyin | |].
        - apply Hx, list_elem_of_In. exact Hyin.
        - apply Hy, list_elem_of_In. exact Hxin. }
      subst y. f_equal. apply IH; [exact Hs2 | eapply Permutation_cons_inv; exact Hperm |].
      intros a b Ha Hb. apply Hanti; right; assumption.
Qed.

(** X4.  The order in which a batch lists its edits does not matter: two
    batches with the same edits, no two of which end at the same position,
    are applied in the same order. *)
Theorem applied_order_independent_of_batch_order
    (batch1 batch2 : list TextDocumentContentChangeEvent) :
  Permutation batch1 batch2 ->
  distinctEnds batch1 ->
  appliedEdits batch1 = appliedEdits batch2.
Proof.
  intros Hperm Hdistinct. rewrite !appliedEdits_sort.
  apply (sorted_permutation_unique
           (fun a b => ParsedDocument._textDocumentChangeCompareFn a b <= 0)).
  - apply sort_sorted; [exact compareFn_trans | exact compareFn_total].
  - apply sort_sorted; [exact compareFn_trans | exact compareFn_total].
  - rewrite !sort_perm. exact Hperm.
  - intros a b Ha Hb Hab Hba.
    apply Hdistinct.
    + eapply Permutation_in; [apply sort_perm | exact Ha].
    + eapply Permutation_in; [apply sort_perm | exact Hb].
    + apply compareFn_sign in Hab, Hba.
      destruct (end_ (range a)) as [la ca], (end_ (range b)) as [lb cb]. simpl in *.
      f_equal; lia.
Qed.

Lemma applied_order_independent_of_batch_order_witness :
  appliedEdits [Sample.edit 1 4 "x"; Sample.edit 3 2 "z"; Sample.edit 0 7 "y"]
  = appliedEdits [Sample.edit 0 7 "y"; Sample.edit 1 4 "x"; Sample.edit 3 2 "z"].
Proof.
  apply applied_order_independent_of_batch_order.
  - apply perm_trans with [Sample.edit 1 4 "x"; Sample.edit 0 7 "y"; Sample.edit 3 2 "z"].
    + apply perm_skip, perm_swap.
    + apply perm_trans with [Sample.edit 0 7 "y"; Sample.edit 1 4 "x"; Sample.edit 3 2 "z"];
        [apply perm_swap | apply Permutation_refl].
  - intros a b Ha Hb Heq. simpl in Ha, Hb.
    destruct Ha as [<- | [<- | [<- | []]]]; destruct Hb as [<- | [<- | [<- | []]]];
      try reflexivity; discriminate Heq.
Defined.

(** ** The document store *)

Section StoreProperties.
Context {TD : Type} `{!TextDocumentOps TD}.

Lemma find_own (s : ParsedDocumentStore.t TD) (uri : string) (doc : ParsedDocument.t TD) :
  ParsedDocumentStore._parsedDocumentmap s !! uri = Some doc ->
  ParsedDocumentStore.find s uri = Some (ParsedDocumentStore.Document doc).
Proof. unfold ParsedDocumentStore.find. intros ->. reflexivity. Qed.

Lemma find_document (s : ParsedDocumentStore.t TD) (uri : string) (doc : ParsedDocument.t TD) :
  ParsedDocumentStore.find s uri = Some (ParsedDocumentStore.Document doc) ->
  ParsedDocumentStore._parsedDocumentmap s !! uri = Some doc.
Proof.
  unfold ParsedDocumentStore.find.
  destruct (ParsedDocumentStore._parsedDocumentmap s !! uri) as [d |].
  - intros Hd. injection Hd as <-. reflexivity.
  - destruct (ObjectPrototype.has uri); discriminate.
Qed.

Lemma find_inherited (s : ParsedDocumentStore.t TD) (uri member : string) :
  ParsedDocumentStore.find s uri = Some (ParsedDocumentStore.Inherited member) ->
  member = uri
  /\ ParsedDocumentStore._parsedDocumentmap s !! uri = None
  /\ ObjectPrototype.has uri = true.
Proof.
  unfold ParsedDocumentStore.find.
  destruct (ParsedDocumentStore._parsedDocumentmap s !! uri) as [d |]; [discriminate |].
  destruct (ObjectPrototype.has uri); [| discriminate].
  intros Hm. injection Hm as <-. auto.
Qed.

Lemma find_none (s : ParsedDocumentStore.t TD) (uri : string) :
  ParsedDocumentStore.find s uri = None ->
  ParsedDocumentStore._parsedDocumentmap s !! uri = None /\ ObjectPrototype.has uri = false.
Proof.
  unfold ParsedDocumentStore.find.
  destruct (ParsedDocumentStore._parsedDocumentmap s !! uri) as [d |]; [discriminate |].
  destruct (ObjectPrototype.has uri); [discriminate | auto].
Qed.

Lemma add_fresh (s : ParsedDocumentStore.t TD) (doc : ParsedDocument.t TD) :
  ParsedDocumentStore.find s (ParsedDocument.uri doc) = None ->
  ParsedDocumentStore.add s doc
  = Js.Ok {| ParsedDocumentStore._parsedDocumentmap :=
               <[ParsedDocument.uri doc := doc]> (ParsedDocumentStore._parsedDocumentmap s);
             ParsedDocumentStore._unsubscribeMap :=
               {[ParsedDocument.uri doc]} ∪ ParsedDocumentStore._unsubscribeMap s |}.
Proof. unfold ParsedDocumentStore.add, ParsedDocumentStore.has. intros ->. reflexivity. Qed.

Lemma remove_stored (s : ParsedDocumentStore.t TD) (uri : string) (doc : ParsedDocument.t TD) :
  ParsedDocumentStore._parsedDocumentmap s !! uri = Some doc ->
  uri ∈ ParsedDocumentStore._unsubscribeMap s ->
  ParsedDocumentStore.remove s uri
  = Js.Ok {| ParsedDocumentStore._parsedDocumentmap :=
               delete uri (ParsedDocumentStore._parsedDocumentmap s);
             ParsedDocumentStore._unsubscribeMap := ParsedDocumentStore._unsubscribeMap s |}.
Proof.
  intros Hown Hhandle.
  unfold ParsedDocumentStore.remove, ParsedDocumentStore.has, ParsedDocumentStore.unsubscribe.
  rewrite (find_own s uri doc Hown), (bool_decide_eq_true_2 _ Hhandle). reflexivity.
Qed.

Lemma store_eta (s : ParsedDocumentStore.t TD) :
  {| ParsedDocumentStore._parsedDocumentmap := ParsedDocumentStore._parsedDocumentmap s;
     ParsedDocumentStore._unsubscribeMap := ParsedDocumentStore._unsubscribeMap s |} = s.
Proof. destruct s. reflexivity. Qed.

(** X5.  [add] succeeds exactly when reading the map under the document's
    URI yields undefined, that is when no document is stored under it and
    it is not the name of a member of Object.prototype: [find] then returns
    the document, every other URI is answered as before and [count] grows
    by one.  Otherwise [add] throws "Duplicate key"; so it does, whatever
    the store, for a document whose URI is such a name. *)
Theorem store_add_then_find (s : ParsedDocumentStore.t TD) (doc : ParsedDocument.t TD) :
  match ParsedDocumentStore.add s doc with
  | Js.Ok s' =>
      ParsedDocumentStore._parsedDocumentmap s !! ParsedDocument.uri doc = None
      /\ ObjectPrototype.has (ParsedDocument.uri doc) = false
      /\ ParsedDocumentStore.find s' (ParsedDocument.uri doc)
         = Some (ParsedDocumentStore.Document doc)
      /\ (forall u, u <> ParsedDocument.uri doc ->
                    ParsedDocumentStore.find s' u = ParsedDocumentStore.find s u)
      /\ ParsedDocumentStore.count s' = S (ParsedDocumentStore.count s)
  | Js.Throw e =>
      e = Js.Error "Duplicate key"
      /\ ((exists old, ParsedDocumentStore._parsedDocumentmap s !! ParsedDocument.uri doc
                       = Some old)
          \/ ObjectPrototype.has (ParsedDocument.uri doc) = true)
  end.
Proof.
  destruct (ParsedDocumentStore.find s (ParsedDocument.uri doc)) as [[old | member] |] eqn:E.
  - unfold ParsedDocumentStore.add, ParsedDocumentStore.has. rewrite E.
    split; [reflexivity |]. left. exists old. exact (find_document _ _ _ E).
  - unfold ParsedDocumentStore.add, ParsedDocumentStore.has. rewrite E.
    split; [reflexivity |]. right. exact (proj2 (proj2 (find_inherited _ _ _ E))).
  - rewrite (add_fresh s doc E). destruct (find_none _ _ E) as [Hown Hproto].
    split; [exact Hown |]. split; [exact Hproto |]. split; [| split].
    + apply find_own. simpl. apply lookup_insert_eq.
    + intros u Hu. unfold ParsedDocumentStore.find. simpl.
      rewrite lookup_insert_ne by congruence. reflexivity.
    + unfold ParsedDocumentStore.count. simpl. apply map_size_insert_None. exact Hown.
Qed.

(** X6.  [remove] returns at once for a URI under which reading the map
    yields undefined.  For a stored document that has its unsubscribe handle
    it deletes the document: nothing is stored under the URI any more,
    every other URI is answered as before, [count] is one lower, the handle
    stays in [_unsubscribeMap], and a document with that URI can be added
    again.  For the name of a member of Object.prototype under which nothing
    is stored it calls the member of that name in place of a handle: the
    store is unchanged when the call returns, the call of a member that
    needs a receiver throws a TypeError, and [find] goes on returning the
    inherited member. *)
Theorem store_remove_then_find (s : ParsedDocumentStore.t TD) (uri : string) :
  match ParsedDocumentStore.find s uri with
  | None => ParsedDocumentStore.remove s uri = Js.Ok s
  | Some (ParsedDocumentStore.Document _) =>
      uri ∈ ParsedDocumentStore._unsubscribeMap s ->
      exists s',
        ParsedDocumentStore.remove s uri = Js.Ok s'
        /\ ParsedDocumentStore._parsedDocumentmap s' !! uri = None
        /\ ParsedDocumentStore.has s' uri = ObjectPrototype.has uri
        /\ (forall u, u <> uri ->
              ParsedDocumentStore.find s' u = ParsedDocumentStore.find s u)
        /\ S (ParsedDocumentStore.count s') = ParsedDocumentStore.count s
        /\ ParsedDocumentStore._unsubscribeMap s' = ParsedDocumentStore._unsubscribeMap s
        /\ (forall doc, ParsedDocument.uri doc = uri -> ObjectPrototype.has uri = false ->
              exists s'', ParsedDocumentStore.add s' doc = Js.Ok s''
                          /\ ParsedDocumentStore.find s'' uri
                             = Some (ParsedDocumentStore.Document doc))
  | Some (ParsedDocumentStore.Inherited member) =>
      member = uri
      /\ (uri ∉ ParsedDocumentStore._unsubscribeMap s ->
          ParsedDocumentStore.remove s uri
          = match ObjectPrototype.call uri with
            | Js.Ok _ => Js.Ok s
            | Js.Throw e => Js.Throw e
            end)
      /\ (ParsedDocumentStore.remove s uri = Js.Ok s
          \/ ParsedDocumentStore.remove s uri = Js.Throw Js.TypeError)
  end.
Proof.
  destruct (ParsedDocumentStore.find s uri) as [[old | member] |] eqn:E.
  - intros Hhandle. pose proof (find_document _ _ _ E) as Hown.
    eexists. split; [exact (remove_stored s uri old Hown Hhandle) |].
    simpl. split; [apply lookup_delete_eq |]. split; [| split; [| split; [| split]]].
    + unfold ParsedDocumentStore.has, ParsedDocumentStore.find. simpl.
      rewrite lookup_delete_eq. destruct (ObjectPrototype.has uri); reflexivity.
    + intros u Hu. unfold ParsedDocumentStore.find. simpl.
      rewrite lookup_delete_ne by congruence. reflexivity.
    + unfold ParsedDocumentStore.count. simpl.
      transitivity (size (<[uri := old]> (delete uri (ParsedDocumentStore._parsedDocumentmap s)))).
      * symmetry. apply map_size_insert_None, lookup_delete_eq.
      * rewrite insert_delete_eq, insert_id by exact Hown. reflexivity.
    + reflexivity.
    + intros doc <- Hproto.
      eexists. split.
      * apply add_fresh. unfold ParsedDocumentStore.find. simpl.
        rewrite lookup_delete_eq, Hproto. reflexivity.
      * apply find_own. simpl. apply lookup_insert_eq.
  - destruct (find_inherited _ _ _ E) as (-> & Hown & Hproto).
    split; [reflexivity |].
    assert (Hsame : {| ParsedDocumentStore._parsedDocumentmap :=
                         delete uri (ParsedDocumentStore._parsedDocumentmap s);
                       ParsedDocumentStore._unsubscribeMap :=
                         ParsedDocumentStore._unsubscribeMap s |} = s).
    { rewrite delete_id by exact Hown. apply store_eta. }
    unfold ParsedDocumentStore.remove, ParsedDocumentStore.has,
      ParsedDocumentStore.unsubscribe.
    rewrite E, Hproto, Hsame. cbn [negb].
    unfold mbind, mret, Result_bind, Result_ret, Js.bind. split.
    + intros Hhandle. rewrite (bool_decide_eq_false_2 _ Hhandle). reflexivity.
    + destruct (bool_decide (uri ∈ ParsedDocumentStore._unsubscribeMap s)); [left; reflexivity |].
      unfold ObjectPrototype.call.
      destruct (bool_decide (uri ∈ ["constructor"; "toString"; "isPrototypeOf"]%string));
        [left | right]; reflexivity.
  - unfold ParsedDocumentStore.remove, ParsedDocumentStore.has. rewrite E. reflexivity.
Qed.

End StoreProperties.

Example add_under_a_prototype_name (tree : Node) :
  ParsedDocumentStore.add ParsedDocumentStore.empty (Sample.document "constructor" tree)
  = Js.Throw (Js.Error "Duplicate key")
  /\ ParsedDocumentStore.has (@ParsedDocumentStore.empty EditLog.t) "constructor" = true
  /\ ParsedDocumentStore.count (@ParsedDocumentStore.empty EditLog.t) = 0%nat.
Proof. repeat split. Qed.

Lemma store_remove_then_find_witness :
  exists s',
    ParsedDocumentStore.remove Sample.documents "file:///a.php" = Js.Ok s'
    /\ ParsedDocumentStore._parsedDocumentmap s' !! "file:///a.php"%string = None
    /\ ParsedDocumentStore.has s' "file:///a.php" = ObjectPrototype.has "file:///a.php"
    /\ (forall u, u <> "file:///a.php"%string ->
          ParsedDocumentStore.find s' u = ParsedDocumentStore.find Sample.documents u)
    /\ S (ParsedDocumentStore.count s') = ParsedDocumentStore.count Sample.documents
    /\ ParsedDocumentStore._unsubscribeMap s'
       = ParsedDocumentStore._unsubscribeMap Sample.documents
    /\ (forall doc, ParsedDocument.uri doc = "file:///a.php"%string ->
          ObjectPrototype.has "file:///a.php" = false ->
          exists s'', ParsedDocumentStore.add s' doc = Js.Ok s''
                      /\ ParsedDocumentStore.find s'' "file:///a.php"
                         = Some (ParsedDocumentStore.Document doc)).
Proof.
  pose proof (store_remove_then_find Sample.documents "file:///a.php") as Hrun.
  replace (ParsedDocumentStore.find Sample.documents "file:///a.php")
    with (Some (ParsedDocumentStore.Document
                  (Sample.document "file:///a.php" (PhraseNode StatementList []))))
    in Hrun by (vm_compute; reflexivity).
  apply Hrun. apply elem_of_singleton. reflexivity.
Defined.

Example remove_under_a_prototype_name :
  ParsedDocumentStore.remove (@ParsedDocumentStore.empty EditLog.t) "constructor"
  = Js.Ok ParsedDocumentStore.empty
  /\ ParsedDocumentStore.find (@ParsedDocumentStore.empty EditLog.t) "constructor"
     = Some (ParsedDocumentStore.Inherited "constructor")
  /\ ParsedDocumentStore.remove (@ParsedDocumentStore.empty EditLog.t) "__proto__"
     = Js.Throw Js.TypeError
  /\ ParsedDocumentStore.remove (@ParsedDocumentStore.empty EditLog.t) "valueOf"
     = Js.Throw Js.TypeError
  /\ ParsedDocumentStore.remove (@ParsedDocumentStore.empty EditLog.t) "file:///a.php"
     = Js.Ok ParsedDocumentStore.empty.
Proof. repeat split. Qed.

Section StoreInvariant.
Context {TD : Type} `{!TextDocumentOps TD}.

Let wellFormed (s : ParsedDocumentStore.t TD) : Prop :=
  forall u d, ParsedDocumentStore._parsedDocumentmap s !! u = Some d ->
              ParsedDocument.uri d = u
              /\ u ∈ ParsedDocumentStore._unsubscribeMap s
              /\ ObjectPrototype.has u = false.

Lemma applyOp_wellFormed (s : ParsedDocumentStore.t TD) (op : StoreOp TD) :
  wellFormed s -> wellFormed (applyOp s op).
Proof.
  intros Hs. destruct op as [doc | uri]; simpl.
  - destruct (ParsedDocumentStore.find s (ParsedDocument.uri doc)) as [v |] eqn:E.
    + unfold ParsedDocumentStore.add, ParsedDocumentStore.has. rewrite E. exact Hs.
    + rewrite (add_fresh s doc E). destruct (find_none _ _ E) as [Hown Hproto].
      intros u d. simpl.
      destruct (decide (ParsedDocument.uri doc = u)) as [<- | Hne].
      * rewrite lookup_insert_eq. intros Hd. injection Hd as <-.
        split; [reflexivity |]. split; [set_solver | exact Hproto].
      * rewrite lookup_insert_ne by exact Hne. intros Hd.
        destruct (Hs u d Hd) as (Hu & Hin & Hp). split; [exact Hu |]. split; [set_solver | exact Hp].
  - destruct (ParsedDocumentStore.remove s uri) as [s' |] eqn:E; [| exact Hs].
    unfold ParsedDocumentStore.remove in E.
    destruct (negb (ParsedDocumentStore.has s uri)).
    + apply Ok_inj in E. subst s'. exact Hs.
    + unfold mbind, mret, Result_bind, Result_ret, Js.bind in E.
      destruct (ParsedDocumentStore.unsubscribe s uri); [| discriminate].
      apply Ok_inj in E. subst s'. intros u d. simpl.
      destruct (decide (uri = u)) as [<- | Hne].
      * rewrite lookup_delete_eq. discriminate.
      * rewrite lookup_delete_ne by exact Hne. apply Hs.
Qed.

Lemma fold_wellFormed (ops : list (StoreOp TD)) (s : ParsedDocumentStore.t TD) :
  wellFormed s -> wellFormed (fold_left applyOp ops s).
Proof.
  revert s. induction ops as [| op ops IH]; intros s Hs; [exact Hs |].
  simpl. apply IH, applyOp_wellFormed, Hs.
Qed.

(** X7.  In a store built from the empty one by any sequence of [add] and
    [remove] calls, failed ones included, every document [find] returns is
    stored under its own URI, which is not the name of a member of
    Object.prototype, and has an unsubscribe handle: [remove] of that URI
    returns, and nothing is stored under the URI afterwards.  What else
    [find] returns is the inherited member of the name asked for. *)
Theorem store_keeps_documents_under_their_uri
    (ops : list (StoreOp TD)) (u : string) (v : ParsedDocumentStore.Value TD) :
  ParsedDocumentStore.find (runOps ops) u = Some v ->
  match v with
  | ParsedDocumentStore.Document d =>
      ParsedDocument.uri d = u
      /\ u ∈ ParsedDocumentStore._unsubscribeMap (runOps ops)
      /\ ObjectPrototype.has u = false
      /\ exists s', ParsedDocumentStore.remove (runOps ops) u = Js.Ok s'
                    /\ ParsedDocumentStore.find s' u = None
  | ParsedDocumentStore.Inherited member =>
      member = u
      /\ ObjectPrototype.has u = true
      /\ ParsedDocumentStore._parsedDocumentmap (runOps ops) !! u = None
  end.
Proof.
  assert (Hwf : wellFormed (runOps ops)).
  { apply (fold_wellFormed ops ParsedDocumentStore.empty).
    intros u' d'. simpl. rewrite lookup_empty. discriminate. }
  destruct v as [d | member]; intros Hfind.
  - pose proof (find_document _ _ _ Hfind) as Hown.
    destruct (Hwf u d Hown) as (Hu & Hin & Hproto).
    split; [exact Hu |]. split; [exact Hin |]. split; [exact Hproto |].
    eexists. split; [exact (remove_stored _ u d Hown Hin) |].
    unfold ParsedDocumentStore.find. simpl. rewrite lookup_delete_eq, Hproto. reflexivity.
  - destruct (find_inherited _ _ _ Hfind) as (Hm & Hown & Hproto). auto.
Qed.

End StoreInvariant.

Lemma store_keeps_documents_under_their_uri_witness :
  ParsedDocument.uri (Sample.document "a.php" Sample.twoTokens) = "a.php"%string
  /\ "a.php"%string
     ∈ ParsedDocumentStore._unsubscribeMap
         (runOps [OpAdd (Sample.document "a.php" Sample.twoTokens);
                  OpAdd (Sample.document "constructor" Sample.twoTokens);
                  OpAdd (Sample.document "b.php" (PhraseNode StatementList []));
                  OpAdd (Sample.document "a.php" (PhraseNode StatementList []));
                  OpRemove "__proto__"%string;
                  OpRemove "b.php"%string])
  /\ ObjectPrototype.has "a.php" = false
  /\ exists s',
       ParsedDocumentStore.remove
         (runOps [OpAdd (Sample.document "a.php" Sample.twoTokens);
                  OpAdd (Sample.document "constructor" Sample.twoTokens);
                  OpAdd (Sample.document "b.php" (PhraseNode StatementList []));
                  OpAdd (Sample.document "a.php" (PhraseNode StatementList []));
                  OpRemove "__proto__"%string;
                  OpRemove "b.php"%string]) "a.php"
       = Js.Ok s'
       /\ ParsedDocumentStore.find s' "a.php" = None.
Proof.
  apply (store_keeps_documents_under_their_uri
           [OpAdd (Sample.document "a.php" Sample.twoTokens);
            OpAdd (Sample.document "constructor" Sample.twoTokens);
            OpAdd (Sample.document "b.php" (PhraseNode StatementList []));
            OpAdd (Sample.document "a.php" (PhraseNode StatementList []));
            OpRemove "__proto__"%string;
            OpRemove "b.php"%string]
           "a.php" (ParsedDocumentStore.Document (Sample.document "a.php" Sample.twoTokens))).
  vm_compute. reflexivity.
Defined.

(** A request for a document that has just been closed: once [remove] has
    returned for a URI that is not the name of a member of Object.prototype,
    a completion request for that URI gets the empty result. *)
Lemma closed_document_gives_empty_result {TD T : Type} `{!TextDocumentOps TD}
    `{!ContextFactory TD T}
    (this : CompletionProvider.t TD T) (uri : string) (position : Position)
    (closed : ParsedDocumentStore.t TD) :
  ObjectPrototype.has uri = false ->
  ParsedDocumentStore.remove (CompletionProvider.documentStore this) uri = Js.Ok closed ->
  CompletionProvider.provideCompletions
    {| CompletionProvider.symbolStore := CompletionProvider.symbolStore this;
       CompletionProvider.documentStore := closed;
       CompletionProvider.maxSuggestions := CompletionProvider.maxSuggestions this;
       CompletionProvider._strategies := CompletionProvider._strategies this |}
    uri position
  = Js.Ok noCompletionResponse.
Proof.
  intros Hproto Hremove. apply provideCompletions_not_found. simpl.
  unfold ParsedDocumentStore.remove, ParsedDocumentStore.has in Hremove.
  destruct (ParsedDocumentStore.find (CompletionProvider.documentStore this) uri)
    as [v |] eqn:E.
  - cbn [negb] in Hremove.
    unfold mbind, mret, Result_bind, Result_ret, Js.bind in Hremove.
    destruct (ParsedDocumentStore.unsubscribe (CompletionProvider.documentStore this) uri);
      [| discriminate].
    apply Ok_inj in Hremove. subst closed.
    unfold ParsedDocumentStore.find. simpl. rewrite lookup_delete_eq, Hproto. reflexivity.
  - apply Ok_inj in Hremove. subst closed. exact E.
Qed.

(** ** Text of a node *)

Section NodeText.
Context {TD : Type} `{!TextDocumentText TD} `{!TreeTraversal}.

(** The text of the descendant tokens, left to right. *)
Let textOf (doc : ParsedDocument.t TD) (n : Node) : string :=
  String.concat EmptyString (map (fun t => tokenText doc (Some (TokenNode t))) (tokens n)).

Lemma concat_empty_app (l1 l2 : list string) :
  String.concat EmptyString (l1 ++ l2)
  = String.concat EmptyString l1 +:+ String.concat EmptyString l2.
Proof.
  induction l1 as [| x l1 IH]; [reflexivity |].
  destruct l1 as [| y l1].
  - simpl. destruct l2; [rewrite append_empty_r |]; reflexivity.
  - change (String.concat EmptyString ((x :: y :: l1) ++ l2))
      with (x +:+ EmptyString +:+ String.concat EmptyString ((y :: l1) ++ l2)).
    rewrite IH.
    change (String.concat EmptyString (x :: y :: l1))
      with (x +:+ EmptyString +:+ String.concat EmptyString (y :: l1)).
    change (EmptyString +:+ ?s) with s. rewrite append_assoc. reflexivity.
Qed.

Lemma visitor_fold (doc : ParsedDocument.t TD) (n : Node) (v : ToStringVisitor.t TD) :
  ToStringVisitor._ignore v = None ->
  ToStringVisitor._doc v = doc ->
  fold_left (fun v n => ToStringVisitor.postOrder v n []) (postOrderNodes n) v
  = {| ToStringVisitor._text := ToStringVisitor._text v +:+ textOf doc n;
       ToStringVisitor._doc := doc; ToStringVisitor._ignore := None |}.
Proof.
  revert v. induction n as [t | ty cs IH] using Node_nested_ind; intros v Hig Hdoc.
  - simpl. unfold ToStringVisitor.postOrder. rewrite Hig, Hdoc. simpl. reflexivity.
  - simpl. rewrite fold_left_app. simpl.
    assert (Hcs : forall v, ToStringVisitor._ignore v = None -> ToStringVisitor._doc v = doc ->
              fold_left (fun v n => ToStringVisitor.postOrder v n []) (flat_map postOrderNodes cs) v
              = {| ToStringVisitor._text :=
                     ToStringVisitor._text v
                     +:+ String.concat EmptyString
                           (map (fun t => tokenText doc (Some (TokenNode t))) (flat_map tokens cs));
                   ToStringVisitor._doc := doc; ToStringVisitor._ignore := None |}).
    { clear v Hig Hdoc. induction IH as [| c cs Hc _ IHcs]; intros v Hig Hdoc.
      - simpl. rewrite append_empty_r. destruct v; simpl in *; congruence.
      - simpl. rewrite fold_left_app, (Hc v Hig Hdoc), IHcs by reflexivity.
        simpl. unfold textOf. rewrite map_app, concat_empty_app, append_assoc. reflexivity. }
    rewrite (Hcs v Hig Hdoc). reflexivity.
Qed.

(** X8.  Under a traversal that visits the subtree in post order,
    [nodeText] is the concatenation of the text of every descendant token
    in document order, whatever the [ignore] list: the visitor's constructor
    never stores the list, so no token type is left out. *)
Theorem nodeText_concatenates_every_token
    (doc : ParsedDocument.t TD) (n : Node) (ignore : option (list TokenType)) :
  visitsInPostOrder ->
  nodeText doc (Some n) ignore
  = String.concat EmptyString (map (fun t => tokenText doc (Some (TokenNode t))) (tokens n)).
Proof.
  intros Htraverse. unfold nodeText.
  rewrite (Htraverse _ ToStringVisitor.postOrder
             (fun v n => ToStringVisitor.postOrder v n []) n
             (ToStringVisitor.new doc ignore)) by reflexivity.
  rewrite (visitor_fold doc n) by reflexivity. reflexivity.
Qed.

End NodeText.

Lemma sample_traversal_post_order : @visitsInPostOrder SampleText.traversal.
Proof.
  intros V f g root v Hfg. simpl. rewrite app_nil_r.
  revert v. induction (postOrderNodes root) as [| n l IH]; intros v; [reflexivity |].
  simpl. rewrite Hfg. apply IH.
Qed.

Lemma nodeText_concatenates_every_token_witness :
  @nodeText _ SampleText.text SampleText.traversal
    (SampleText.document "a.php" "new Foo" SampleText.newFoo)
    (Some SampleText.newFoo) (Some [Name; OtherToken 1])
  = "new Foo"%string.
Proof.
  exact (@nodeText_concatenates_every_token _ SampleText.text SampleText.traversal
           (SampleText.document "a.php" "new Foo" SampleText.newFoo)
           SampleText.newFoo (Some [Name; OtherToken 1]) sample_traversal_post_order).
Defined.

(** * Further properties of the completion provider *)

(** ** Flags *)

Lemma toInt32_range (z : Z) : - 2 ^ 31 <= Js.toInt32 z < 2 ^ 31.
Proof.
  unfold Js.toInt32.
  pose proof (Z.mod_pos_bound (z + 2 ^ 31) (2 ^ 32) ltac:(lia)). lia.
Qed.

Lemma toInt32_small (z : Z) : - 2 ^ 31 <= z < 2 ^ 31 -> Js.toInt32 z = z.
Proof. intros Hz. unfold Js.toInt32. rewrite Z.mod_small by lia. lia. Qed.

Lemma int32_high_bits (z : Z) : - 2 ^ 31 <= z < 2 ^ 31 <-> (z / 2 ^ 31 = 0 \/ z / 2 ^ 31 = -1).
Proof.
  pose proof (Z.div_mod z (2 ^ 31) ltac:(lia)) as Hdm.
  pose proof (Z.mod_pos_bound z (2 ^ 31) ltac:(lia)) as Hm.
  split; [intros Hz | intros [Hq | Hq]; rewrite Hq in Hdm; lia].
  assert (- 1 <= z / 2 ^ 31 < 1) by (split; nia). lia.
Qed.

Lemma lor_int32 (a b : Z) :
  - 2 ^ 31 <= a < 2 ^ 31 -> - 2 ^ 31 <= b < 2 ^ 31 -> - 2 ^ 31 <= Z.lor a b < 2 ^ 31.
Proof.
  rewrite !int32_high_bits, <- !Z.shiftr_div_pow2 by lia.
  rewrite Z.shiftr_lor. intros [-> | ->] [-> | ->]; simpl; auto.
Qed.

(** A mask built with [|] is clear of a value exactly when each flag is. *)
Lemma band_bor_zero (m p q : Z) :
  Js.band m (Js.bor p q) = 0 <-> Js.band m p = 0 /\ Js.band m q = 0.
Proof.
  unfold Js.band, Js.bor.
  rewrite (toInt32_small (Z.lor _ _)) by (apply lor_int32; apply toInt32_range).
  rewrite Z.land_lor_distr_r. apply Z.lor_eq_0_iff.
Qed.

Lemma not_truthy (z : Z) : negb (Js.truthy z) = true <-> z = 0.
Proof. unfold Js.truthy. rewrite negb_involutive. apply Z.eqb_eq. Qed.

(** ** Keyword and name items *)

(** X9.  The keyword items are the items of the keywords that match the
    text, one each, in the order of the keyword table. *)
Theorem keywordCompletionItems_are_the_matching_keywords `{!Util}
    (keywords : list string) (text : string) :
  keywordCompletionItems keywords text
  = map keywordItem (List.filter (fuzzyStringMatch text) keywords).
Proof.
  induction keywords as [| kw rest IH]; [reflexivity |].
  simpl. destruct (fuzzyStringMatch text kw); simpl; rewrite IH; reflexivity.
Qed.

Lemma prefix_split (p s : string) :
  String.prefix p s = true -> exists r, s = p +:+ r.
Proof.
  revert s. induction p as [| c p IH]; intros s Hp.
  - exists s. reflexivity.
  - destruct s as [| c' s]; simpl in Hp; [discriminate |].
    destruct (ascii_dec c c') as [<- | _]; [| discriminate].
    destruct (IH s Hp) as [r ->]. exists r. reflexivity.
Qed.

Lemma substring_all (s : string) : String.substring 0 (String.length s) s = s.
Proof. induction s as [| c s IH]; [reflexivity |]. simpl. rewrite IH. reflexivity. Qed.

Lemma sliceFrom_after_prefix (p r : string) (c : ascii) :
  Js.sliceFrom (Js.strLen p + 1) (p +:+ String c r) = r.
Proof.
  unfold Js.sliceFrom, Js.strLen.
  replace (Z.to_nat (Z.of_nat (String.length p) + 1)) with (S (String.length p)) by lia.
  rewrite append_length. simpl String.length.
  replace (String.length p + S (String.length r) - S (String.length p))%nat
    with (String.length r) by lia.
  induction p as [| c' p IH].
  - change (String.substring 0 (String.length r) r = r). apply substring_all.
  - rewrite append_cons. exact IH.
Qed.

(** X10.  For a symbol whose name starts with the current namespace and is
    more than one character longer, the label of its name item is the name
    without the namespace and the character after it, and the detail is the
    full name; the inserted text is the label followed by "($0)". *)
Theorem toNameCompletionItem_drops_namespace `{!SymbolKind.Enum} `{!SymbolModifier.Enum}
    (s : PhpSymbol.t) (namespace : string) (namePhraseType : option PhraseType)
    (kind : option Z) :
  Js.nonEmpty namespace = true ->
  Js.startsWith (PhpSymbol.name s) namespace = true ->
  Js.strLen (PhpSymbol.name s) > Js.strLen namespace + 1 ->
  let item := toNameCompletionItem s namespace namePhraseType kind in
  (exists separator,
      PhpSymbol.name s = namespace +:+ String separator (lsp.label item))
  /\ lsp.detail item = Some (PhpSymbol.name s)
  /\ lsp.insertText item = Some (lsp.label item +:+ "($0)").
Proof.
  intros Hns Hprefix Hlen. unfold toNameCompletionItem.
  rewrite Hns, Hprefix.
  replace (Js.strLen (PhpSymbol.name s) >? Js.strLen namespace + 1) with true
    by (symmetry; apply Z.gtb_lt; lia).
  cbn [andb]. cbv zeta. split; [| split; reflexivity].
  unfold Js.startsWith in Hprefix. destruct (prefix_split _ _ Hprefix) as [r Hr].
  destruct r as [| c r].
  - rewrite Hr, append_empty_r in Hlen. lia.
  - exists c. cbn [lsp.label]. rewrite Hr at 2. rewrite sliceFrom_after_prefix. exact Hr.
Qed.

Lemma toNameCompletionItem_drops_namespace_witness :
  (exists separator,
      "App\Foo"%string
      = "App" +:+ String separator
          (lsp.label (@toNameCompletionItem Sample.kinds Sample.modifiers
                        (Sample.symbol 1 "App\Foo" 0) "App" (Some QualifiedName) None)))
  /\ lsp.detail (@toNameCompletionItem Sample.kinds Sample.modifiers
                   (Sample.symbol 1 "App\Foo" 0) "App" (Some QualifiedName) None)
     = Some "App\Foo"%string
  /\ lsp.insertText (@toNameCompletionItem Sample.kinds Sample.modifiers
                       (Sample.symbol 1 "App\Foo" 0) "App" (Some QualifiedName) None)
     = Some (lsp.label (@toNameCompletionItem Sample.kinds Sample.modifiers
                          (Sample.symbol 1 "App\Foo" 0) "App" (Some QualifiedName) None)
             +:+ "($0)").
Proof.
  apply (@toNameCompletionItem_drops_namespace Sample.kinds Sample.modifiers
           (Sample.symbol 1 "App\Foo" 0) "App" (Some QualifiedName) None).
  - reflexivity.
  - reflexivity.
  - reflexivity.
Defined.

(** The character after the namespace is dropped whatever it is. *)
Example label_of_a_longer_namespace :
  lsp.label (@toNameCompletionItem Sample.kinds Sample.modifiers
               (Sample.symbol 1 "Application\Foo" 0) "App" (Some QualifiedName) None)
  = "ication\Foo"%string.
Proof. reflexivity. Qed.

(** ** Visibility tiers *)

Section Tiers.
Context `{!Util} `{!SymbolKind.Enum} `{!SymbolModifier.Enum}.

(** X11.  For static access the three tiers nest: a symbol offered on an
    unrelated class is offered on the base class, and a symbol offered on
    the base class is offered on the own class.  Every offered symbol
    matches the text and is a class constant or a static method or
    property; outside the own class it is not private, and outside the
    own and the base class it is not protected either. *)
Theorem scoped_access_tiers_nest (text : string) (s : PhpSymbol.t) :
  implb (ScopedAccessCompletion._createMembersPredicate text s)
        (ScopedAccessCompletion._createBaseMembersPredicate text s
         && bool_decide (Js.band (PhpSymbol.modifiers s) SymbolModifier.Protected = 0)) = true
  /\ implb (ScopedAccessCompletion._createBaseMembersPredicate text s)
           (ScopedAccessCompletion._createOwnMembersPredicate text s
            && bool_decide (Js.band (PhpSymbol.modifiers s) SymbolModifier.Private = 0)) = true
  /\ implb (ScopedAccessCompletion._createOwnMembersPredicate text s)
           (fuzzyStringMatch text (PhpSymbol.name s)
            && ((PhpSymbol.kind s =? SymbolKind.ClassConstant)
                || (Js.band (PhpSymbol.modifiers s) SymbolModifier.Static >? 0))) = true.
Proof.
  unfold ScopedAccessCompletion._createMembersPredicate,
    ScopedAccessCompletion._createBaseMembersPredicate,
    ScopedAccessCompletion._createOwnMembersPredicate,
    ScopedAccessCompletion.isStaticMember.
  destruct (fuzzyStringMatch text (PhpSymbol.name s));
    rewrite ?andb_false_r, ?andb_true_r; [| repeat split].
  repeat split.
  - destruct (negb (Js.truthy (Js.band (PhpSymbol.modifiers s)
                (Js.bor SymbolModifier.Private SymbolModifier.Protected)))) eqn:E;
      [| rewrite andb_false_r; reflexivity].
    apply not_truthy, band_bor_zero in E. destruct E as [Hpriv Hprot].
    rewrite (proj2 (not_truthy _) Hpriv), bool_decide_eq_true_2 by exact Hprot.
    rewrite !andb_true_r. apply implb_same.
  - destruct (negb (Js.truthy (Js.band (PhpSymbol.modifiers s) SymbolModifier.Private))) eqn:E;
      [| rewrite andb_false_r; reflexivity].
    apply not_truthy in E. rewrite bool_decide_eq_true_2 by exact E.
    rewrite !andb_true_r. apply implb_same.
  - destruct (Js.band (PhpSymbol.kind s) (Js.bor SymbolKind.Method SymbolKind.Property) >? 0),
      (Js.band (PhpSymbol.modifiers s) SymbolModifier.Static >? 0),
      (PhpSymbol.kind s =? SymbolKind.ClassConstant); reflexivity.
Qed.

(** X12.  For instance access no tier offers a symbol that has the static
    flag, a symbol offered on an unrelated class is offered on the own
    class and is neither private nor protected, and, the static flag being
    a non-zero value, nothing is offered on the base class. *)
Theorem object_access_tiers (text : string) (s : PhpSymbol.t) :
  Js.toInt32 SymbolModifier.Static <> 0 ->
  implb (ObjectAccessCompletion._createMembersPredicate text s)
        (ObjectAccessCompletion._createOwnMembersPredicate text s
         && bool_decide (Js.band (PhpSymbol.modifiers s) SymbolModifier.Private = 0)
         && bool_decide (Js.band (PhpSymbol.modifiers s) SymbolModifier.Protected = 0)) = true
  /\ implb (ObjectAccessCompletion._createOwnMembersPredicate text s)
           (fuzzyStringMatch text (PhpSymbol.name s)
            && bool_decide (Js.band (PhpSymbol.modifiers s) SymbolModifier.Static = 0)) = true
  /\ ObjectAccessCompletion._createBaseMembersPredicate text s = false.
Proof.
  intros Hstatic. split; [| split].
  - unfold ObjectAccessCompletion._createMembersPredicate,
      ObjectAccessCompletion._createOwnMembersPredicate.
    destruct (fuzzyStringMatch text (PhpSymbol.name s));
      rewrite ?andb_false_r, ?andb_true_r; [| reflexivity].
    destruct (negb (Js.truthy (Js.band (PhpSymbol.modifiers s)
                (Js.bor (Js.bor SymbolModifier.Private SymbolModifier.Protected)
                   SymbolModifier.Static)))) eqn:E;
      [| rewrite andb_false_r; reflexivity].
    apply not_truthy, band_bor_zero in E. destruct E as [Hpp Hst].
    apply band_bor_zero in Hpp. destruct Hpp as [Hpriv Hprot].
    rewrite (proj2 (not_truthy _) Hst), !bool_decide_eq_true_2 by assumption.
    rewrite !andb_true_r. apply implb_same.
  - unfold ObjectAccessCompletion._createOwnMembersPredicate.
    destruct (fuzzyStringMatch text (PhpSymbol.name s));
      rewrite ?andb_false_r, ?andb_true_r; [| reflexivity].
    destruct (negb (Js.truthy (Js.band (PhpSymbol.modifiers s) SymbolModifier.Static))) eqn:E;
      [| rewrite andb_false_r; reflexivity].
    apply not_truthy in E. rewrite bool_decide_eq_true_2 by exact E.
    rewrite andb_true_r. destruct (_ >? 0); reflexivity.
  - unfold ObjectAccessCompletion._createBaseMembersPredicate.
    rewrite (truthy_bor_right _ _ Hstatic). simpl. rewrite andb_false_r. reflexivity.
Qed.

End Tiers.

Lemma object_access_tiers_witness :
  implb (@ObjectAccessCompletion._createMembersPredicate Sample.util Sample.kinds
           Sample.modifiers "g" Sample.g)
        (@ObjectAccessCompletion._createOwnMembersPredicate Sample.util Sample.kinds
           Sample.modifiers "g" Sample.g
         && bool_decide (Js.band (PhpSymbol.modifiers Sample.g) 4 = 0)
         && bool_decide (Js.band (PhpSymbol.modifiers Sample.g) 2 = 0)) = true
  /\ implb (@ObjectAccessCompletion._createOwnMembersPredicate Sample.util Sample.kinds
              Sample.modifiers "g" Sample.g)
           (Sample.subsequence "g" (PhpSymbol.name Sample.g)
            && bool_decide (Js.band (PhpSymbol.modifiers Sample.g) 32 = 0)) = true
  /\ @ObjectAccessCompletion._createBaseMembersPredicate Sample.util Sample.kinds
       Sample.modifiers "g" Sample.g = false.
Proof.
  apply (@object_access_tiers Sample.util Sample.kinds Sample.modifiers "g" Sample.g).
  vm_compute. discriminate.
Defined.

(** ** Which strategies accept a context *)

Section Acceptance.
Context {T : Type} `{!TreeTraverserOps T} `{!PhraseFields} `{!Util}
        `{!SymbolKind.Enum} `{!SymbolModifier.Enum}.

(** X13.  At most one strategy accepts a context, with one exception: the
    scoped-access and the simple-variable strategy can both accept it
    (a dollar token under a simple variable).  Apart from that pair the
    order of the strategy list decides nothing. *)
Theorem at_most_one_strategy_accepts (symbolStore : SymbolStore.t) (maxSuggestions : Z)
    (context : Context.t T) (i j : StrategyId) :
  canSuggest (strategyOf symbolStore maxSuggestions i) context = true ->
  canSuggest (strategyOf symbolStore maxSuggestions j) context = true ->
  i = j
  \/ (i = ScopedAccessId /\ j = SimpleVariableId)
  \/ (i = SimpleVariableId /\ j = ScopedAccessId).
Proof.
  destruct i, j; auto; simpl;
    unfold ClassTypeDesignatorCompletion.canSuggest, ScopedAccessCompletion.canSuggest,
      ObjectAccessCompletion.canSuggest, SimpleVariableCompletion.canSuggest,
      NameCompletion.canSuggest;
    destruct (node (Context.createTraverser context)) as [[[tty off len] | ty cs] |];
    try destruct tty;
    destruct (parent (Context.createTraverser context)) as [tr1 [[tk1 | ty1 cs1] |]];
    try destruct ty1; simpl; intros Hi Hj; try discriminate Hi; try discriminate Hj; auto.
Qed.

End Acceptance.

Lemma at_most_one_strategy_accepts_witness :
  ScopedAccessId = SimpleVariableId
  \/ (ScopedAccessId = ScopedAccessId /\ SimpleVariableId = SimpleVariableId)
  \/ (ScopedAccessId = SimpleVariableId /\ SimpleVariableId = ScopedAccessId).
Proof.
  apply (@at_most_one_strategy_accepts _ TreeTraverser.moving Sample.fields Sample.util
           Sample.kinds Sample.modifiers Sample.index 100
           (Sample.context Sample.index staticPropertySpine "$" "B" "A" ["A"%string])).
  - reflexivity.
  - reflexivity.
Defined.

(** On the dollar of a static property both strategies accept the context
    and the scoped-access one, the earlier in the list, answers. *)
Example scoped_access_before_simple_variable :
  @CompletionProvider.provideCompletions _ _
    (Sample.factory staticPropertySpine "$" "B" "A" ["A"%string])
    (@CompletionProvider.new _ _ TreeTraverser.moving Sample.fields Sample.util
       Sample.kinds Sample.modifiers Sample.index Sample.documents 100)
    "file:///a.php" (mkPosition 0 3)
  = @ScopedAccessCompletion.completions _ TreeTraverser.moving Sample.fields Sample.util
      Sample.kinds Sample.modifiers Sample.index 100
      (Sample.context Sample.index staticPropertySpine "$" "B" "A" ["A"%string]).
Proof. vm_compute. reflexivity. Qed.

(** ** Order and exceptions of completions *)

Lemma keywordItems_map `{!Util} (keywords : list string) (text : string) :
  keywordCompletionItems keywords text
  = map keywordItem (List.filter (fuzzyStringMatch text) keywords).
Proof.
  induction keywords as [| kw rest IH]; [reflexivity |].
  change (keywordCompletionItems (kw :: rest) text)
    with (if fuzzyStringMatch text kw
          then keywordItem kw :: keywordCompletionItems rest text
          else keywordCompletionItems rest text).
  change (List.filter (fuzzyStringMatch text) (kw :: rest))
    with (if fuzzyStringMatch text kw
          then kw :: List.filter (fuzzyStringMatch text) rest
          else List.filter (fuzzyStringMatch text) rest).
  destruct (fuzzyStringMatch text kw); rewrite IH; reflexivity.
Qed.

Lemma pushItems_ok `{!Util} (toItem : PhpSymbol.t -> Js.Result lsp.CompletionItem)
    (limit : Z) (symbols : list PhpSymbol.t) (items result : list lsp.CompletionItem) :
  pushItems toItem limit symbols items = Js.Ok result ->
  exists more, Js.mapM toItem (firstn (Z.to_nat limit) symbols) = Js.Ok more
               /\ result = items ++ more.
Proof.
  unfold pushItems, mbind, mret, Result_bind, Result_ret, Js.bind, Js.take. intros Hp.
  destruct (Js.mapM toItem (firstn (Z.to_nat limit) symbols)) as [more |]; [| discriminate].
  exists more. split; [reflexivity |]. apply Ok_inj in Hp. congruence.
Qed.

Lemma mapM_throw {A B} (f : A -> Js.Result B) (xs : list A) (e : Js.Exception) :
  Js.mapM f xs = Js.Throw e -> exists x, In x xs /\ f x = Js.Throw e.
Proof.
  induction xs as [| x xs IH]; simpl; [discriminate |].
  destruct (f x) as [y | e'] eqn:E; simpl.
  - destruct (Js.mapM f xs) as [ys | e'']; simpl; [discriminate |].
    intros He. destruct (IH He) as (x' & Hin & Hx'). eauto.
  - intros He. exists x. split; [left; reflexivity | congruence].
Qed.

Lemma mapM_ok {A B} (f : A -> Js.Result B) (xs : list A) :
  (forall x, In x xs -> exists y, f x = Js.Ok y) -> exists ys, Js.mapM f xs = Js.Ok ys.
Proof.
  induction xs as [| x xs IH]; intros Hall; simpl; [eauto |].
  destruct (Hall x (or_introl eq_refl)) as [y ->].
  destruct IH as [ys ->]; [intros x' Hx'; apply Hall; right; exact Hx' |].
  simpl. eauto.
Qed.

Section Order.
Context {T : Type} `{!TreeTraverserOps T} `{!PhraseFields} `{!Util}
        `{!SymbolKind.Enum} `{!SymbolModifier.Enum}.

Ltac run_result Hrun :=
  unfold mbind, mret, Result_bind, Result_ret, Js.bind in Hrun.

(** Closes a goal about the items of the result with the run of [pushItems]
    in [Hrun]; leaves the goal that the items collected before are the
    keyword items. *)
Ltac finish_order Hrun :=
  match type of Hrun with
  | match pushItems ?f ?l ?s ?i with _ => _ end = _ =>
      let Hpush := fresh "Hpush" in
      let items := fresh "items" in
      let more := fresh "more" in
      let Hmore := fresh "Hmore" in
      destruct (pushItems f l s i) as [items |] eqn:Hpush; [| discriminate];
      apply Ok_inj in Hrun; subst;
      destruct (pushItems_ok _ _ _ _ _ Hpush) as (more & Hmore & ->);
      exists (Z.to_nat l), more; split; [exact Hmore | cbn [lsp.items]; f_equal]
  end.

Let ordered (id : StrategyId) (symbolStore : SymbolStore.t) (context : Context.t T)
    (result : lsp.CompletionList) : Prop :=
  match candidates symbolStore id context with
  | None => lsp.items result = []
  | Some (keywords, symbols) =>
      exists n more,
        Js.mapM (toItemOf id context) (firstn n symbols) = Js.Ok more
        /\ lsp.items result = map keywordItem keywords ++ more
  end.

Lemma designator_ordered (symbolStore : SymbolStore.t) (maxSuggestions : Z)
    (context : Context.t T) (result : lsp.CompletionList) :
  ClassTypeDesignatorCompletion.completions maxSuggestions context = Js.Ok result ->
  ordered ClassTypeDesignatorId symbolStore context result.
Proof.
  unfold ordered, candidates, toItemOf, nameQuery, ClassTypeDesignatorCompletion.completions.
  destruct (parent (Context.createTraverser context)) as [tr1 nsNameNode].
  cbn [fst snd]. destruct (parent tr1) as [tr2 qNameNode]. cbn [fst snd].
  destruct (Js.nonEmpty _); cbn [negb]; intros Hrun;
    [| apply Ok_inj in Hrun; subst; reflexivity].
  run_result Hrun.
  destruct (phraseTypeOf qNameNode) as [qType |] eqn:Hq; [| discriminate].
  apply phraseTypeOf_ok in Hq. subst qType.
  finish_order Hrun.
  destruct (phraseTypeIs (nodePhraseType qNameNode) QualifiedName);
    [rewrite app_nil_l; apply keywordItems_map | reflexivity].
Qed.

Lemma scopedAccess_ordered (symbolStore : SymbolStore.t) (maxSuggestions : Z)
    (context : Context.t T) (result : lsp.CompletionList) :
  ScopedAccessCompletion.completions symbolStore maxSuggestions context = Js.Ok result ->
  ordered ScopedAccessId symbolStore context result.
Proof.
  unfold ordered, candidates, toItemOf, ScopedAccessCompletion.completions.
  destruct (ancestor _ (Context.createTraverser context)) as [tr [expr |]];
    cbn [snd]; [| discriminate].
  destruct (TypeString.atomicClassArray _) as [| typeName typeNames] eqn:Hnames.
  - change (Js.len (@nil string) =? 0) with true. cbv iota.
    intros Hrun. apply Ok_inj in Hrun. subst. reflexivity.
  - replace (Js.len (typeName :: typeNames) =? 0) with false
      by (symmetry; apply Z.eqb_neq; unfold Js.len; simpl; lia).
    intros Hrun. run_result Hrun. finish_order Hrun.
Qed.

Lemma objectAccess_ordered (symbolStore : SymbolStore.t) (maxSuggestions : Z)
    (context : Context.t T) (result : lsp.CompletionList) :
  ObjectAccessCompletion.completions symbolStore maxSuggestions context = Js.Ok result ->
  ordered ObjectAccessId symbolStore context result.
Proof.
  unfold ordered, candidates, toItemOf, ObjectAccessCompletion.completions.
  destruct (ancestor _ (Context.createTraverser context)) as [tr [expr |]];
    cbn [snd]; [| discriminate].
  destruct (TypeString.atomicClassArray _) as [| typeName typeNames] eqn:Hnames.
  - change (Js.len (@nil string) =? 0) with true. cbv iota.
    intros Hrun. apply Ok_inj in Hrun. subst. reflexivity.
  - replace (Js.len (typeName :: typeNames) =? 0) with false
      by (symmetry; apply Z.eqb_neq; unfold Js.len; simpl; lia).
    intros Hrun. run_result Hrun. finish_order Hrun.
Qed.

Lemma simpleVariable_ordered (symbolStore : SymbolStore.t) (maxSuggestions : Z)
    (context : Context.t T) (result : lsp.CompletionList) :
  SimpleVariableCompletion.completions maxSuggestions context = Js.Ok result ->
  ordered SimpleVariableId symbolStore context result.
Proof.
  unfold ordered, candidates, toItemOf, SimpleVariableCompletion.completions.
  destruct (Js.nonEmpty _); cbn [negb]; intros Hrun;
    [| apply Ok_inj in Hrun; subst; reflexivity].
  destruct (Context.scopeSymbol context) as [scope |]; [| discriminate].
  run_result Hrun. finish_order Hrun.
Qed.

Lemma name_ordered (symbolStore : SymbolStore.t) (maxSuggestions : Z)
    (context : Context.t T) (result : lsp.CompletionList) :
  NameCompletion.completions maxSuggestions context = Js.Ok result ->
  ordered NameId symbolStore context result.
Proof.
  unfold ordered, candidates, toItemOf, nameQuery, NameCompletion.completions.
  destruct (parent (Context.createTraverser context)) as [tr1 nsNameNode].
  cbn [fst snd]. destruct (parent tr1) as [tr2 qNameNode]. cbn [fst snd].
  destruct (parent tr2) as [tr3 qNameParent].
  destruct (Js.nonEmpty _); cbn [negb]; intros Hrun;
    [| apply Ok_inj in Hrun; subst; reflexivity].
  run_result Hrun.
  destruct (phraseTypeOf qNameNode) as [qType |] eqn:Hq; [| discriminate].
  apply phraseTypeOf_ok in Hq. subst qType.
  destruct (phraseTypeIs (nodePhraseType qNameNode) QualifiedName).
  - destruct (phraseTypeOf qNameParent) as [parentType |] eqn:Hp; [| discriminate].
    apply phraseTypeOf_ok in Hp. subst parentType.
    destruct (phraseTypeIs (nodePhraseType qNameParent) StatementList);
      finish_order Hrun;
      rewrite ?app_nil_l, ?app_nil_r, ?map_app, ?keywordItems_map; reflexivity.
  - finish_order Hrun.
Qed.

(** X14.  No strategy reorders its candidates: the items of a result are
    the items of the matching keywords, in table order, followed by the
    presentation of the first symbols of the index's answer, in the order
    of the answer. *)
Theorem completions_keep_candidate_order (symbolStore : SymbolStore.t) (maxSuggestions : Z)
    (id : StrategyId) (context : Context.t T) (result : lsp.CompletionList) :
  completions (strategyOf symbolStore maxSuggestions id) context = Js.Ok result ->
  match candidates symbolStore id context with
  | None => lsp.items result = []
  | Some (keywords, symbols) =>
      exists n more,
        Js.mapM (toItemOf id context) (firstn n symbols) = Js.Ok more
        /\ lsp.items result = map keywordItem keywords ++ more
  end.
Proof.
  destruct id; intros Hrun.
  - exact (designator_ordered symbolStore maxSuggestions context result Hrun).
  - exact (scopedAccess_ordered symbolStore maxSuggestions context result Hrun).
  - exact (objectAccess_ordered symbolStore maxSuggestions context result Hrun).
  - exact (simpleVariable_ordered symbolStore maxSuggestions context result Hrun).
  - exact (name_ordered symbolStore maxSuggestions context result Hrun).
Qed.

End Order.

Lemma completions_keep_candidate_order_witness :
  exists n more,
    Js.mapM
      (@toItemOf _ TreeTraverser.moving Sample.kinds Sample.modifiers ClassTypeDesignatorId
         (Sample.context Sample.index Sample.newFooSpine "Foo" "B" "A" []))
      (firstn n [Sample.symbol 1 "Foo" 0; Sample.symbol 1 "FooBar" 0])
    = Js.Ok more
    /\ [{| lsp.label := "Foo"; lsp.kind := lsp.SymbolKind.Constructor;
           lsp.detail := Some "Foo"%string; lsp.documentation := None;
           lsp.insertText := Some "Foo($0)"%string;
           lsp.insertTextFormat := Some lsp.InsertTextFormat.Snippet |}]
       = map keywordItem [] ++ more.
Proof.
  exact (@completions_keep_candidate_order _ TreeTraverser.moving Sample.fields Sample.util
           Sample.kinds Sample.modifiers Sample.index 1 ClassTypeDesignatorId
           (Sample.context Sample.index Sample.newFooSpine "Foo" "B" "A" []) _ eq_refl).
Defined.

Lemma mapM_presentable {A B} (f : A -> Js.Result B) (p : A -> bool) (e : Js.Exception)
    (xs : list A) :
  (forall x, if p x then exists y, f x = Js.Ok y else f x = Js.Throw e) ->
  if forallb p xs then exists ys, Js.mapM f xs = Js.Ok ys else Js.mapM f xs = Js.Throw e.
Proof.
  intros Hf. induction xs as [| x xs IH]; simpl; [eauto |].
  specialize (Hf x). destruct (p x); simpl.
  - destruct Hf as [y ->]. simpl.
    destruct (forallb p xs); [destruct IH as [ys ->]; simpl; eauto | rewrite IH; reflexivity].
  - rewrite Hf. reflexivity.
Qed.

Section Exceptions.
Context {T : Type} `{!TreeTraverserOps T} `{!PhraseFields} `{!Util}
        `{!SymbolKind.Enum} `{!SymbolModifier.Enum}.

Lemma scoped_item_or_throw (s : PhpSymbol.t) :
  if presentable ScopedAccessId s
  then exists item, ScopedAccessCompletion._toCompletionItem s = Js.Ok item
  else ScopedAccessCompletion._toCompletionItem s = Js.Throw (Js.Error "Invalid Argument").
Proof.
  unfold presentable, ScopedAccessCompletion._toCompletionItem.
  destruct (PhpSymbol.kind s =? SymbolKind.ClassConstant),
    (PhpSymbol.kind s =? SymbolKind.Method), (PhpSymbol.kind s =? SymbolKind.Property);
    simpl; eauto.
Qed.

Lemma object_item_or_throw (s : PhpSymbol.t) :
  if presentable ObjectAccessId s
  then exists item, ObjectAccessCompletion._toCompletionItem s = Js.Ok item
  else ObjectAccessCompletion._toCompletionItem s = Js.Throw (Js.Error "Invalid Argument").
Proof.
  unfold presentable, ObjectAccessCompletion._toCompletionItem.
  destruct (PhpSymbol.kind s =? SymbolKind.Method), (PhpSymbol.kind s =? SymbolKind.Property);
    simpl; eauto.
Qed.

Lemma pushItems_presentable (toItem : PhpSymbol.t -> Js.Result lsp.CompletionItem)
    (p : PhpSymbol.t -> bool) (e : Js.Exception) (limit : Z) (symbols : list PhpSymbol.t)
    (flag : bool) :
  (forall s, if p s then exists y, toItem s = Js.Ok y else toItem s = Js.Throw e) ->
  if forallb p (firstn (Z.to_nat limit) symbols)
  then exists result,
      (items ← pushItems toItem limit symbols [];
       mret {| lsp.isIncomplete := flag; lsp.items := items |}) = Js.Ok result
  else (items ← pushItems toItem limit symbols [];
        mret {| lsp.isIncomplete := flag; lsp.items := items |}) = Js.Throw e.
Proof.
  intros Hf. pose proof (mapM_presentable toItem p e (firstn (Z.to_nat limit) symbols) Hf) as Hm.
  unfold pushItems, mbind, mret, Result_bind, Result_ret, Js.bind, Js.take.
  destruct (forallb p (firstn (Z.to_nat limit) symbols)).
  - destruct Hm as [ys ->]. eauto.
  - rewrite Hm. reflexivity.
Qed.

(** X15.  What a member-access strategy throws.  Without an enclosing access
    phrase [completions] throws a TypeError; with one and a type that has
    class names it returns a list when every symbol among the first
    [min(symbols.length, maxSuggestions)] of the index's answer is of a
    kind the strategy presents, and throws "Invalid Argument" otherwise. *)
Theorem member_access_exceptions (symbolStore : SymbolStore.t) (maxSuggestions : Z)
    (id : StrategyId) (context : Context.t T) :
  id = ScopedAccessId \/ id = ObjectAccessId ->
  match accessedType id context with
  | None =>
      completions (strategyOf symbolStore maxSuggestions id) context = Js.Throw Js.TypeError
  | Some _ =>
      match candidates symbolStore id context with
      | None =>
          completions (strategyOf symbolStore maxSuggestions id) context
          = Js.Ok {| lsp.items := []; lsp.isIncomplete := false |}
      | Some (_, symbols) =>
          if forallb (presentable id)
               (firstn (Z.to_nat (Z.min (Js.len symbols) maxSuggestions)) symbols)
          then exists result,
              completions (strategyOf symbolStore maxSuggestions id) context = Js.Ok result
          else completions (strategyOf symbolStore maxSuggestions id) context
               = Js.Throw (Js.Error "Invalid Argument")
      end
  end.
Proof.
  intros [-> | ->]; unfold accessedType, candidates;
    cbn [strategyOf Completion.completions ScopedAccessCompletion.new
           ObjectAccessCompletion.new].
  - unfold ScopedAccessCompletion.completions.
    destruct (ancestor _ (Context.createTraverser context)) as [tr [expr |]];
      cbn [snd]; [| reflexivity].
    destruct (TypeString.atomicClassArray _) as [| typeName typeNames] eqn:Hnames;
      [reflexivity |].
    replace (Js.len (typeName :: typeNames) =? 0) with false
      by (symmetry; apply Z.eqb_neq; unfold Js.len; simpl; lia).
    apply pushItems_presentable, scoped_item_or_throw.
  - unfold ObjectAccessCompletion.completions.
    destruct (ancestor _ (Context.createTraverser context)) as [tr [expr |]];
      cbn [snd]; [| reflexivity].
    destruct (TypeString.atomicClassArray _) as [| typeName typeNames] eqn:Hnames;
      [reflexivity |].
    replace (Js.len (typeName :: typeNames) =? 0) with false
      by (symmetry; apply Z.eqb_neq; unfold Js.len; simpl; lia).
    apply pushItems_presentable, object_item_or_throw.
Qed.

End Exceptions.

Lemma member_access_exceptions_witness :
  completions
    (@strategyOf _ TreeTraverser.moving Sample.fields Sample.util Sample.kinds
       Sample.modifiers mixedKindIndex 100 ScopedAccessId)
    (Sample.context mixedKindIndex Sample.scopedAccessSpine "x" "A" "Z" ["A"%string])
  = Js.Throw (Js.Error "Invalid Argument").
Proof.
  exact (@member_access_exceptions _ TreeTraverser.moving Sample.fields Sample.util
           Sample.kinds Sample.modifiers mixedKindIndex 100 ScopedAccessId
           (Sample.context mixedKindIndex Sample.scopedAccessSpine "x" "A" "Z" ["A"%string])
           (or_introl eq_refl)).
Defined.

Section DesignatorTotal.
Context {T : Type} `{!TreeTraverserOps T} `{!Util} `{!SymbolKind.Enum} `{!SymbolModifier.Enum}.

Lemma pushItems_total (g : PhpSymbol.t -> lsp.CompletionItem) (limit : Z)
    (symbols : list PhpSymbol.t) (items : list lsp.CompletionItem) :
  exists result, pushItems (fun s => Js.Ok (g s)) limit symbols items = Js.Ok result.
Proof.
  unfold pushItems, mbind, mret, Result_bind, Result_ret, Js.bind.
  destruct (mapM_ok (fun s => Js.Ok (g s)) (Js.take limit symbols)) as [ys ->]; eauto.
Qed.

(** X16.  Whenever the class-type-designator strategy accepts a context,
    its [completions] returns a list: the second parent, whose phrase type
    is read, is the qualified name that [canSuggest] has seen. *)
Theorem designator_completions_never_throw (maxSuggestions : Z) (context : Context.t T) :
  ClassTypeDesignatorCompletion.canSuggest context = true ->
  exists result, ClassTypeDesignatorCompletion.completions maxSuggestions context = Js.Ok result.
Proof.
  unfold ClassTypeDesignatorCompletion.canSuggest, ClassTypeDesignatorCompletion.completions.
  destruct (ParsedDocument.isToken _ _); [| discriminate].
  destruct (parent (Context.createTraverser context)) as [tr1 nsNameNode].
  destruct (ParsedDocument.isPhrase nsNameNode _); [| discriminate].
  destruct (parent tr1) as [tr2 qNameNode].
  destruct qNameNode as [[tk | qType cs] |]; try discriminate.
  intros _. destruct (Js.nonEmpty _); cbn [negb]; [| eauto].
  unfold mbind, mret, Result_bind, Result_ret. cbn [phraseTypeOf Js.bind].
  match goal with
  | |- exists r, Js.bind (pushItems (fun x => Js.Ok (@?g x)) ?l ?syms ?i) _ = _ =>
      destruct (pushItems_total g l syms i) as [items ->]
  end.
  cbn [Js.bind]. eauto.
Qed.

End DesignatorTotal.

Lemma designator_completions_never_throw_witness :
  exists result,
    @ClassTypeDesignatorCompletion.completions _ TreeTraverser.moving Sample.util
      Sample.kinds Sample.modifiers 100
      (Sample.context Sample.index Sample.newFooSpine "Foo" "B" "A" [])
    = Js.Ok result.
Proof.
  apply (@designator_completions_never_throw _ TreeTraverser.moving Sample.util
           Sample.kinds Sample.modifiers 100
           (Sample.context Sample.index Sample.newFooSpine "Foo" "B" "A" [])).
  reflexivity.
Defined.

(** The general-name strategy has no such guarantee: it reads the phrase
    type of the second parent, which its [canSuggest] has not looked at. *)
Example name_completions_can_throw :
  @NameCompletion.canSuggest _ TreeTraverser.moving
    (Sample.context Sample.index
       [Sample.token Backslash 0 1;
        PhraseNode FullyQualifiedName [Sample.token Backslash 0 1]] "F" "B" "A" [])
  = true
  /\ @NameCompletion.completions _ TreeTraverser.moving Sample.util Sample.kinds
       Sample.modifiers 100
       (Sample.context Sample.index
          [Sample.token Backslash 0 1;
           PhraseNode FullyQualifiedName [Sample.token Backslash 0 1]] "F" "B" "A" [])
     = Js.Throw Js.TypeError.
Proof. split; reflexivity. Qed.

(** ** Symbol filters *)

(** X17.  The filter of class-name completion accepts classes only and never
    one that is anonymous or abstract; the filter of general-name completion
    never accepts an anonymous symbol. *)
Theorem name_filters_reject_anonymous `{!SymbolKind.Enum} `{!SymbolModifier.Enum}
    (s : PhpSymbol.t) :
  implb (ClassTypeDesignatorCompletion._symbolFilter s)
        (bool_decide (PhpSymbol.kind s = SymbolKind.Class_)
         && bool_decide (Js.band (PhpSymbol.modifiers s) SymbolModifier.Anonymous = 0)
         && bool_decide (Js.band (PhpSymbol.modifiers s) SymbolModifier.Abstract = 0)) = true
  /\ implb (NameCompletion._symbolFilter s)
           (bool_decide (Js.band (PhpSymbol.modifiers s) SymbolModifier.Anonymous = 0)) = true.
Proof.
  unfold ClassTypeDesignatorCompletion._symbolFilter, NameCompletion._symbolFilter. split.
  - destruct (Z.eqb_spec (PhpSymbol.kind s) SymbolKind.Class_) as [Hk | Hk]; [| reflexivity].
    destruct (negb (Js.truthy (Js.band (PhpSymbol.modifiers s)
                (Js.bor SymbolModifier.Anonymous SymbolModifier.Abstract)))) eqn:E;
      [| reflexivity].
    apply not_truthy, band_bor_zero in E. destruct E as [Han Hab].
    rewrite !bool_decide_eq_true_2 by assumption. reflexivity.
  - destruct (negb (Js.truthy (Js.band (PhpSymbol.modifiers s) SymbolModifier.Anonymous))) eqn:E;
      [| rewrite andb_false_r; reflexivity].
    apply not_truthy in E. rewrite bool_decide_eq_true_2 by exact E.
    destruct (_ >? 0); reflexivity.
Qed.
